(** * The concurrent execution core of the Māori LLM benchmark

    A shallow embedding of [src/core/throttle.ts] (the limiter) and
    [src/core/runner.ts] (retry wrapper, orchestrator, aggregator, trace
    naming), with the properties the design document states about them.

    Conventions of the embedding:
    - the three ceilings of the limiter are JavaScript numbers as
      [Number(v)] on the command line yields them: a finite value (an exact
      rational, as every double is), an infinity or [NaN]; counters
      ([active], the lengths of the logs) are natural numbers, token costs
      are in [N] (the callers pass whole numbers: [estimateTokens] or the
      default 500), [retries] is a natural number (the design document
      gives [R >= 0]); wall-clock milliseconds ([Date.now()], never
      rewound) and HTTP status codes are in [Z];
    - scores are exact rationals ([Qc]); the rounding of floating-point
      sums, quotients and of [Number(...)] is not modelled, so of scores
      only what rounding cannot change is stated (bounds, the values 0 and
      1, sums of whole numbers);
    - the Node event loop is a sequence of events (a [setImmediate]
      callback runs, a timer fires, a task's promise settles, time passes):
      every handler is a function on the limiter's state and the
      interleaving is the list of events;
    - the file system and the caller's progress callback are collaborators
      of a run: each call either returns or throws;
    - a JavaScript string is a [string], one character per code unit. *)

From Stdlib Require Import ZArith NArith QArith Qround Qcanon Strings.String Strings.Ascii Lia.
From stdpp Require Import base numbers list strings gmap sorting.

Local Open Scope Z_scope.

(** ** JavaScript numbers, as far as the ceilings need them *)

Module Js.

(** What [Number(v)] can yield. *)
Inductive number :=
| NaN
| NegInfinity
| Finite (q : Qc)
| Infinity.

Definition ofZ (z : Z) : Qc := Q2Qc (inject_Z z).

(** The whole number [z]. *)
Definition int (z : Z) : number := Finite (ofZ z).

(** [n >= m], [n > m] and [n <= m] for a whole number [n] and a number [m]:
    every comparison with [NaN] is false. *)
Definition geb (n : Z) (m : number) : bool :=
  match m with
  | NaN => false
  | NegInfinity => true
  | Finite q => bool_decide (q ≤ ofZ n)%Qc
  | Infinity => false
  end.

Definition gtb (n : Z) (m : number) : bool :=
  match m with
  | NaN => false
  | NegInfinity => true
  | Finite q => bool_decide (q < ofZ n)%Qc
  | Infinity => false
  end.

Definition leb (n : Z) (m : number) : bool :=
  match m with
  | NaN => false
  | NegInfinity => false
  | Finite q => bool_decide (ofZ n ≤ q)%Qc
  | Infinity => true
  end.

(** A ceiling that counts: a whole number from 0 on, or [Infinity]. *)
Definition counts (m : number) : Prop :=
  m = Infinity ∨ ∃ c : nat, m = int (Z.of_nat c).

End Js.

(** ** The limiter: [createLimiter] *)

Module Throttle.

Record LimiterOptions := {
  maxConcurrent : Js.number;
  maxRequestsPerMinute : Js.number;
  maxTokensPerMinute : Js.number
}.

Definition windowMs : Z := 60000.
Definition retryDelayMs : Z := 250.
Definition defaultEstimatedTokens : N := 500.

(** How a scheduled task's promise settles. *)
Inductive settlement := Fulfilled | Rejected.

Section Limiter.

(** The scheduled function [fn]; its [resolve] / [reject] pair is the
    continuation run by the settle event. *)
Context {Task : Type}.

Record QueueEntry := { fn : Task; tokens : N }.

(** The closure state of [createLimiter], the callbacks the event loop still
    owes it, and two ghost fields the code never reads: the tasks whose
    [await item.fn()] is pending and the history of every admission. *)
Record state := {
  queue : list QueueEntry;
  active : nat;
  requestsTimestamps : list Z;
  tokensTimestamps : list (Z * N);
  immediates : nat;            (* pending setImmediate(runNext) *)
  timers : list Z;             (* pending setTimeout(runNext, _): due times *)
  clock : Z;                   (* Date.now() *)
  running : list QueueEntry;   (* ghost: accepted, not yet settled *)
  admissions : list (Z * N)      (* ghost: every admission, oldest first *)
}.

Definition createLimiter : state :=
  {| queue := []; active := 0%nat; requestsTimestamps := [];
     tokensTimestamps := []; immediates := 0%nat; timers := []; clock := 0;
     running := []; admissions := [] |}.

(** [prune]: both logs lose their head while the head is older than the
    window. *)
Fixpoint pruneRequests (now : Z) (l : list Z) : list Z :=
  match l with
  | [] => []
  | t0 :: l' => if now - t0 >? windowMs then pruneRequests now l' else l
  end.

Fixpoint pruneTokens (now : Z) (l : list (Z * N)) : list (Z * N) :=
  match l with
  | [] => []
  | e :: l' => if now - e.1 >? windowMs then pruneTokens now l' else l
  end.

(** [tokensTimestamps.reduce((acc, e) => acc + e.tokens, 0)] *)
Definition tokensUsedOf (l : list (Z * N)) : N :=
  foldl (λ acc e, (acc + e.2)%N) 0%N l.

(** The throttle test of [runNext], on the pruned logs. *)
Definition throttled (o : LimiterOptions) (reqs : list Z)
    (toks : list (Z * N)) (item : QueueEntry) : bool :=
  Js.geb (Z.of_nat (length reqs)) (maxRequestsPerMinute o)
  || Js.gtb (Z.of_N (tokensUsedOf toks + tokens item)) (maxTokensPerMinute o).

(** [runNext], up to the point where it awaits the task. *)
Definition runNext (o : LimiterOptions) (s : state) : state :=
  if Js.geb (Z.of_nat (active s)) (maxConcurrent o) then s
  else
    match queue s with
    | [] => s
    | item :: rest =>
        let now := clock s in
        let reqs := pruneRequests now (requestsTimestamps s) in
        let toks := pruneTokens now (tokensTimestamps s) in
        if throttled o reqs toks item then
          (* put back and try later *)
          {| queue := item :: rest; active := active s;
             requestsTimestamps := reqs; tokensTimestamps := toks;
             immediates := immediates s;
             timers := timers s ++ [now + retryDelayMs];
             clock := clock s; running := running s;
             admissions := admissions s |}
        else
          {| queue := rest; active := S (active s);
             requestsTimestamps := reqs ++ [now];
             tokensTimestamps := toks ++ [(now, tokens item)];
             immediates := immediates s; timers := timers s;
             clock := clock s; running := running s ++ [item];
             admissions := admissions s ++ [(now, tokens item)] |}
    end.

(** [schedule(fn, estimatedTokens = 500)]: the optional argument is [None]
    when the caller omits it. *)
Definition schedule (f : Task) (estimatedTokens : option N) (s : state) : state :=
  {| queue := queue s ++ [{| fn := f; tokens := default defaultEstimatedTokens estimatedTokens |}];
     active := active s;
     requestsTimestamps := requestsTimestamps s;
     tokensTimestamps := tokensTimestamps s;
     immediates := S (immediates s); timers := timers s; clock := clock s;
     running := running s; admissions := admissions s |}.

(** The [finally] block of [runNext], once the awaited task has settled
    either way; [rest] is what remains in flight. *)
Definition settle (rest : list QueueEntry) (s : state) : state :=
  {| queue := queue s; active := (active s - 1)%nat;
     requestsTimestamps := requestsTimestamps s;
     tokensTimestamps := tokensTimestamps s;
     immediates := S (immediates s); timers := timers s; clock := clock s;
     running := rest; admissions := admissions s |}.

Definition setImmediates (n : nat) (s : state) : state :=
  {| queue := queue s; active := active s;
     requestsTimestamps := requestsTimestamps s;
     tokensTimestamps := tokensTimestamps s;
     immediates := n; timers := timers s; clock := clock s;
     running := running s; admissions := admissions s |}.

Definition setTimers (l : list Z) (s : state) : state :=
  {| queue := queue s; active := active s;
     requestsTimestamps := requestsTimestamps s;
     tokensTimestamps := tokensTimestamps s;
     immediates := immediates s; timers := l; clock := clock s;
     running := running s; admissions := admissions s |}.

Definition advance (d : N) (s : state) : state :=
  {| queue := queue s; active := active s;
     requestsTimestamps := requestsTimestamps s;
     tokensTimestamps := tokensTimestamps s;
     immediates := immediates s; timers := timers s;
     clock := clock s + Z.of_N d;
     running := running s; admissions := admissions s |}.

(** What the event loop can do next. *)
Inductive event :=
| EvSchedule (f : Task) (estimatedTokens : option N)
| EvImmediate                     (* one setImmediate(runNext) callback runs *)
| EvTimer (i : nat)               (* the i-th pending timer fires *)
| EvSettle (i : nat) (r : settlement)  (* the i-th task in flight settles *)
| EvTick (d : N).                 (* [d] milliseconds pass *)

(** One turn of the event loop; [None] when the event is not enabled. *)
Definition step (o : LimiterOptions) (s : state) (e : event) : option state :=
  match e with
  | EvSchedule f est => Some (schedule f est s)
  | EvImmediate =>
      match immediates s with
      | O => None
      | S n => Some (runNext o (setImmediates n s))
      end
  | EvTimer i =>
      match timers s !! i with
      | Some due =>
          if due <=? clock s then Some (runNext o (setTimers (delete i (timers s)) s))
          else None
      | None => None
      end
  | EvSettle i _ =>
      match running s !! i with
      | Some _ => Some (settle (delete i (running s)) s)
      | None => None
      end
  | EvTick d => Some (advance d s)
  end.

Fixpoint run (o : LimiterOptions) (s : state) (evs : list event) : option state :=
  match evs with
  | [] => Some s
  | e :: evs' =>
      match step o s e with
      | Some s' => run o s' evs'
      | None => None
      end
  end.

(** Vocabulary for the rate budgets: the admissions of a history that fall
    in the 60-second window ending at [T]. *)
Definition inWindow (T : Z) (e : Z * N) : bool :=
  (T - windowMs <=? e.1) && (e.1 <=? T).

Definition requestsIn (T : Z) (history : list (Z * N)) : nat :=
  length (List.filter (inWindow T) history).

Definition tokensIn (T : Z) (history : list (Z * N)) : N :=
  tokensUsedOf (List.filter (inWindow T) history).

(** The three ways [runNext] can go. *)
Inductive runNextCase (o : LimiterOptions) (s : state) : state → Prop :=
| RunNextIdle :
    Js.geb (Z.of_nat (active s)) (maxConcurrent o) = true ∨ queue s = [] →
    runNextCase o s s
| RunNextThrottled item rest :
    Js.geb (Z.of_nat (active s)) (maxConcurrent o) = false →
    queue s = item :: rest →
    throttled o (pruneRequests (clock s) (requestsTimestamps s))
      (pruneTokens (clock s) (tokensTimestamps s)) item = true →
    runNextCase o s
      {| queue := item :: rest; active := active s;
         requestsTimestamps := pruneRequests (clock s) (requestsTimestamps s);
         tokensTimestamps := pruneTokens (clock s) (tokensTimestamps s);
         immediates := immediates s;
         timers := timers s ++ [clock s + retryDelayMs];
         clock := clock s; running := running s; admissions := admissions s |}
| RunNextAccepted item rest :
    Js.geb (Z.of_nat (active s)) (maxConcurrent o) = false →
    queue s = item :: rest →
    throttled o (pruneRequests (clock s) (requestsTimestamps s))
      (pruneTokens (clock s) (tokensTimestamps s)) item = false →
    runNextCase o s
      {| queue := rest; active := S (active s);
         requestsTimestamps := pruneRequests (clock s) (requestsTimestamps s) ++ [clock s];
         tokensTimestamps := pruneTokens (clock s) (tokensTimestamps s) ++ [(clock s, tokens item)];
         immediates := immediates s; timers := timers s;
         clock := clock s; running := running s ++ [item];
         admissions := admissions s ++ [(clock s, tokens item)] |}.

(** The invariant behind the concurrency ceiling: [active] counts the tasks
    in flight and stays below every count at which the test
    [active >= maxConcurrent] holds. *)
Definition concurrencyOk (o : LimiterOptions) (s : state) : Prop :=
  active s = length (running s)
  ∧ ∀ k : nat, Js.geb (Z.of_nat k) (maxConcurrent o) = true → (active s ≤ k)%nat.

(** A log of admissions that the token test let through: it is empty or
    its sum is not above the ceiling. *)
Definition tokensOk (o : LimiterOptions) (l : list (Z * N)) : Prop :=
  l = [] ∨ Js.gtb (Z.of_N (tokensUsedOf l)) (maxTokensPerMinute o) = false.

(** The two logs agree, each is as the admission tests left it, the token
    log is the recent end of the admission history, and so is every
    60-second window of that history. *)
Record rateOk (o : LimiterOptions) (s : state) : Prop := {
  rate_sync : requestsTimestamps s = (tokensTimestamps s).*1;
  rate_requests :
    ∀ k : nat, Js.geb (Z.of_nat k) (maxRequestsPerMinute o) = true →
               (length (requestsTimestamps s) ≤ k)%nat;
  rate_tokens : tokensOk o (tokensTimestamps s);
  rate_history : ∃ old, admissions s = old ++ tokensTimestamps s
                        ∧ Forall (λ e, clock s - e.1 > windowMs) old;
  rate_windows :
    ∀ T, (∀ k : nat, Js.geb (Z.of_nat k) (maxRequestsPerMinute o) = true →
                     (requestsIn T (admissions s) ≤ k)%nat)
         ∧ tokensOk o (List.filter (inWindow T) (admissions s))
}.

End Limiter.

Arguments QueueEntry : clear implicits.
Arguments state : clear implicits.
Arguments event : clear implicits.

End Throttle.

(** ** The runner: retry wrapper, orchestrator, aggregator, trace names *)

Module Runner.

Record TestCase := {
  id : string;
  task : string;
  prompt : string;
  expected : option string;       (* opaque JSON *)
  evalSpec : string               (* opaque evaluator spec *)
}.

Record ModelSpec := {
  name : string;
  provider_id : string;
  params : option string          (* opaque JSON *)
}.

Record TestResult := {
  testId : string;
  model : string;
  providerId : string;
  resultPrompt : string;
  response : string;
  raw : option string;
  score : Qc;
  latencyMs : Z;
  resultExpected : option string;
  error : option string
}.

(** *** Thrown values *)

(** The value of a [status] property, when it is neither [undefined] nor
    [null]. *)
Inductive jsValue :=
| VNumber (n : Z)
| VOther.            (* a string, a boolean, an object ... *)

Record Failure := {
  isError : bool;                     (* err instanceof Error *)
  message : string;                   (* err.message *)
  asString : string;                  (* String(err) *)
  status : option jsValue;            (* err?.status *)
  responseStatus : option jsValue     (* err?.response?.status *)
}.

Inductive outcome (T : Type) :=
| Returned (v : T)
| Thrown (err : Failure).
Arguments Returned {T} v.
Arguments Thrown {T} err.

(** [err?.status ?? err?.response?.status] *)
Definition statusOf (err : Failure) : option jsValue :=
  match status err with
  | Some v => Some v
  | None => responseStatus err
  end.

(** [status === 429 || (typeof status === "number" && status >= 500)] *)
Definition retriable (err : Failure) : bool :=
  match statusOf err with
  | Some (VNumber n) => (n =? 429) || (500 <=? n)
  | _ => false
  end.

(** *** [withRetry] *)

Definition initialDelayMs : Z := 500.
Definition maxDelayMs : Z := 8000.
Definition jitterSpanMs : Z := 200.

(** [Math.floor(Math.random() * 200)] for a draw [r] of [Math.random()]. *)
Definition jitterOf (r : Q) : Z := Qfloor (r * inject_Z jitterSpanMs).

(** [Math.min(8000, Math.round(delay * 2))]; the delay is an integer, so
    rounding changes nothing. *)
Definition nextDelay (delay : Z) : Z := Z.min maxDelayMs (delay * 2).

(** One backoff wait: the value of [delay] and the argument given to
    [setTimeout]. *)
Record Wait := { baseDelay : Z; timeoutMs : Z }.

(** The wait that starts from base delay [delay] and draw [n] of
    [Math.random], [k] doublings later. *)
Definition waitAt (random : nat → Q) (delay : Z) (n k : nat) : Wait :=
  {| baseDelay := Nat.iter k nextDelay delay;
     timeoutMs := Nat.iter k nextDelay delay + jitterOf (random (n + k)%nat) |}.

(** What one call of [withRetry] did: how it ended, how often it invoked the
    operation, and the waits between the invocations. *)
Record RetryRun (T : Type) := {
  ended : outcome T;
  invocations : nat;
  waits : list Wait
}.
Arguments ended {T} _.
Arguments invocations {T} _.
Arguments waits {T} _.

(** The [while (true)] loop.  The operation is given by what its [k]-th
    invocation does, [Math.random] by its successive draws; [calls] counts
    the invocations made so far and [waited] lists the waits made so far.
    The loop has no bound of its own, so the embedding takes fuel. *)
Fixpoint withRetryLoop {T} (fuel : nat) (fn : nat → outcome T) (random : nat → Q)
    (retries attempt : nat) (delay : Z) (calls : nat) (waited : list Wait)
    : option (RetryRun T) :=
  match fuel with
  | O => None
  | S fuel' =>
      match fn calls with
      | Returned v =>
          Some {| ended := Returned v; invocations := S calls; waits := waited |}
      | Thrown err =>
          let attempt := S attempt in
          if negb (retriable err) || (retries <? attempt)%nat then
            Some {| ended := Thrown err; invocations := S calls; waits := waited |}
          else
            let jitter := jitterOf (random (length waited)) in
            let w := {| baseDelay := delay; timeoutMs := delay + jitter |} in
            withRetryLoop fuel' fn random retries attempt (nextDelay delay)
              (S calls) (waited ++ [w])
      end
  end.

Definition withRetryFuel {T} (fuel : nat) (fn : nat → outcome T)
    (random : nat → Q) (retries : nat) : option (RetryRun T) :=
  withRetryLoop fuel fn random retries 0 initialDelayMs 0 [].

(** [retries + 1] rounds of the loop are always enough (see
    [withRetryLoop_enough]). *)
Definition withRetry {T} (fn : nat → outcome T) (random : nat → Q)
    (retries : nat) : option (RetryRun T) :=
  withRetryFuel (S retries) fn random retries.

(** *** [estimateTokens] *)

(** [Math.max(50, Math.ceil(length / 4) + 50)] *)
Definition estimateTokens (text : string) : N :=
  let len := N.of_nat (String.length text) in
  N.max 50 ((len + 3) / 4 + 50).

(** *** [sanitize] and [writeTrace] *)

Definition inRange (lo hi c : ascii) : bool :=
  (nat_of_ascii lo <=? nat_of_ascii c)%nat && (nat_of_ascii c <=? nat_of_ascii hi)%nat.

(** The character class [a-zA-Z0-9_.-]. *)
Definition keptChar (c : ascii) : bool :=
  inRange "a" "z" c || inRange "A" "Z" c || inRange "0" "9" c
  || Ascii.eqb c "_" || Ascii.eqb c "." || Ascii.eqb c "-".

(** [s.replace(/[^a-zA-Z0-9_.-]/g, "_")] *)
Fixpoint sanitize (s : string) : string :=
  match s with
  | EmptyString => EmptyString
  | String c s' => String (if keptChar c then c else "_"%char) (sanitize s')
  end.

(** [Boolean(r.error)]: a missing or empty message is falsy. *)
Definition truthy (e : option string) : bool :=
  match e with
  | None => false
  | Some EmptyString => false
  | Some _ => true
  end.

Definition isFail (r : TestResult) : bool :=
  truthy (error r) || bool_decide (score r < 1)%Qc.

Definition statusMarker (fail : bool) : string :=
  if fail then "__FAIL" else "".

(** The file name [writeTrace] builds from the unit's model and test id and
    the failure flag. *)
Definition traceNameOf (fail : bool) (m tid : string) : string :=
  sanitize m +:+ "__" +:+ sanitize tid +:+ statusMarker fail +:+ ".json".

Definition traceName (r : TestResult) : string :=
  traceNameOf (isFail r) (model r) (testId r).

(** Names that [sanitize] leaves alone: every character is kept. *)
Fixpoint allChars (p : ascii → bool) (s : string) : bool :=
  match s with
  | EmptyString => true
  | String c s' => p c && allChars p s'
  end.

(** *** [summarize] *)

(** [byModel] is an object literal, so it inherits the properties of
    [Object.prototype]: for these keys [byModel[key]] is a function (or,
    for [__proto__], the prototype itself) before anything is stored. *)
Definition objectPrototypeKeys : list string :=
  ["constructor"; "__defineGetter__"; "__defineSetter__"; "hasOwnProperty";
   "__lookupGetter__"; "__lookupSetter__"; "isPrototypeOf";
   "propertyIsEnumerable"; "toString"; "valueOf"; "__proto__";
   "toLocaleString"]%string.

Definition inherited (key : string) : bool :=
  bool_decide (key ∈ objectPrototypeKeys).

Record ModelTotals := { tests : nat; sum : Qc }.

Record ModelSummary := { testCount : nat; avgScore : Qc }.

Record Summary := {
  byModel : gmap string ModelSummary;
  overallAvg : Qc
}.

Definition QcOfNat (n : nat) : Qc := Q2Qc (inject_Z (Z.of_nat n)).

(** The body of the [for (const r of results)] loop, on the own properties
    of [byModel].  Under an inherited key the test [!byModel[key]] sees the
    inherited (truthy) value, nothing is stored, and the two [+=] write to
    that inherited object: the own properties stay as they are. *)
Definition addResult (acc : gmap string ModelTotals) (r : TestResult)
    : gmap string ModelTotals :=
  let key := model r in
  if inherited key then acc
  else
    let acc1 :=
      match acc !! key with
      | None => <[key := {| tests := 0; sum := 0%Qc |}]> acc
      | Some _ => acc
      end in
    alter (λ v, {| tests := S (tests v); sum := (sum v + score r)%Qc |}) key acc1.

(** [v.tests ? v.sum / v.tests : 0] *)
Definition average (total : Qc) (n : nat) : Qc :=
  match n with
  | O => 0%Qc
  | S _ => (total / QcOfNat n)%Qc
  end.

Definition scoreSum (results : list TestResult) : Qc :=
  foldl (λ acc r, (acc + score r)%Qc) 0%Qc results.

Definition summarize (results : list TestResult) : Summary :=
  let totals := foldl addResult ∅ results in
  {| byModel :=
       (λ v, {| testCount := tests v; avgScore := average (sum v) (tests v) |})
         <$> totals;
     overallAvg := average (scoreSum results) (length results) |}.

(** What one more result does to the totals kept under [m]. *)
Definition bump (r : TestResult) (v : option ModelTotals) : option ModelTotals :=
  let start := default {| tests := 0; sum := 0%Qc |} v in
  Some {| tests := S (tests start); sum := (sum start + score r)%Qc |}.

(** The results of one model, in the order of the list. *)
Definition ofModel (m : string) (results : list TestResult) : list TestResult :=
  List.filter (λ r, bool_decide (model r = m)) results.

(** *** [runBenchmark] *)

Record RunOptions := {
  suite : list TestCase;
  models : list ModelSpec;
  concurrency : Js.number;
  maxRequestsPerMinute : Js.number;
  maxTokensPerMinute : Js.number;
  retries : nat
}.

Record RunOutput := {
  outModels : list ModelSpec;
  outResults : list TestResult;
  summary : Summary
}.

(** One unit of work: the closure passed to [limiter.schedule], with its
    position in [tasks]. *)
Record WorkItem := { index : nat; unitModel : ModelSpec; unitTest : TestCase }.

(** The collaborators of the run.  Per unit: what the [k]-th
    [client.complete] call does (text and raw payload, or a throw), what
    [evaluateTest] does with the text, the draws of [Math.random], the
    latency measured in the [try] branch and the one measured in the
    [catch] branch, and what [JSON.stringify] and [writeFileSync] do with a
    trace record of the unit under a file name ([None] when they return,
    the thrown value otherwise).  At the end: what they do with the report
    and the summary.  The caller: what [options.onProgress] does ([None]
    when it returns or is not given). *)
Record Env := {
  complete : WorkItem → nat → outcome (string * string);
  evaluateTest : WorkItem → string → outcome Qc;
  random : WorkItem → nat → Q;
  elapsedMs : WorkItem → Z;
  elapsedInCatchMs : WorkItem → Z;
  writeFileSync : WorkItem → string → TestResult → option Failure;
  onProgress : nat → nat → TestResult → option Failure;
  writeReport : RunOutput → option Failure
}.

(** [writeTrace]: the record is written under the name [traceName]
    builds. *)
Definition writeTrace (env : Env) (u : WorkItem) (r : TestResult)
    : option Failure :=
  writeFileSync env u (traceName r) r.

(** [err instanceof Error ? err.message : String(err)] *)
Definition failureMessage (err : Failure) : string :=
  if isError err then message err else asString err.

(** The result built in the [catch] branch. *)
Definition failureResult (env : Env) (u : WorkItem) (err : Failure) : TestResult :=
  {| testId := id (unitTest u); model := name (unitModel u);
     providerId := provider_id (unitModel u);
     resultPrompt := prompt (unitTest u);
     response := ""; raw := None; score := 0%Qc;
     latencyMs := elapsedInCatchMs env u;
     resultExpected := expected (unitTest u);
     error := Some (failureMessage err) |}.

(** The result built in the [try] branch. *)
Definition successResult (env : Env) (u : WorkItem) (text payload : string)
    (sc : Qc) : TestResult :=
  {| testId := id (unitTest u); model := name (unitModel u);
     providerId := provider_id (unitModel u);
     resultPrompt := prompt (unitTest u);
     response := text; raw := Some payload; score := sc;
     latencyMs := elapsedMs env u;
     resultExpected := expected (unitTest u);
     error := None |}.

(** The [catch] branch: the failure record is built, written and returned;
    nothing catches a throw of this [writeTrace]. *)
Definition catchBranch (env : Env) (u : WorkItem) (err : Failure)
    : outcome TestResult :=
  let result := failureResult env u err in
  match writeTrace env u result with
  | None => Returned result
  | Some thrown => Thrown thrown
  end.

(** The async function scheduled for a unit: how its promise settles, or
    [None] if the retried call never comes back.  Whatever is thrown inside
    the [try], by the retried call, by the evaluator or by [writeTrace],
    lands in the [catch] branch. *)
Definition unitBody (env : Env) (nretries : nat) (u : WorkItem)
    : option (outcome TestResult) :=
  match withRetry (complete env u) (random env u) nretries with
  | None => None
  | Some r =>
      match ended r with
      | Returned (text, payload) =>
          match evaluateTest env u text with
          | Returned sc =>
              let result := successResult env u text payload sc in
              match writeTrace env u result with
              | None => Some (Returned result)
              | Some err => Some (catchBranch env u err)
              end
          | Thrown err => Some (catchBranch env u err)
          end
      | Thrown err => Some (catchBranch env u err)
      end
  end.

(** The cross-product, models outside and tests inside. *)
Definition pairs (opts : RunOptions) : list (ModelSpec * TestCase) :=
  flat_map (λ m, List.map (λ t, (m, t)) (suite opts)) (models opts).

Definition workItems (opts : RunOptions) : list WorkItem :=
  imap (λ i p, {| index := i; unitModel := p.1; unitTest := p.2 |}) (pairs opts).

(** [options.models.length * options.suite.length] *)
Definition total (opts : RunOptions) : nat :=
  (length (models opts) * length (suite opts))%nat.

Definition limiterOptions (opts : RunOptions) : Throttle.LimiterOptions :=
  {| Throttle.maxConcurrent := concurrency opts;
     Throttle.maxRequestsPerMinute := maxRequestsPerMinute opts;
     Throttle.maxTokensPerMinute := maxTokensPerMinute opts |}.

(** The variables of [runBenchmark], how its own promise has settled, and a
    ghost field the code does not have: the units whose scheduled function
    threw. *)
Record RunState := {
  limiter : Throttle.state WorkItem;
  results : list TestResult;
  completed : nat;
  finished : option (outcome RunOutput);  (* how [runBenchmark] settled *)
  lost : list WorkItem                    (* ghost: units that rejected *)
}.

(** The state when the two [for] loops are done (the run directory exists,
    the client is built): every unit is queued with its estimated cost and
    nothing has run yet. *)
Definition runBenchmark (opts : RunOptions) : RunState :=
  {| limiter :=
       foldl (λ s u, Throttle.schedule u (Some (estimateTokens (prompt (unitTest u)))) s)
         Throttle.createLimiter (workItems opts);
     results := []; completed := 0%nat; finished := None; lost := [] |}.

Definition withLimiter (l : Throttle.state WorkItem) (s : RunState) : RunState :=
  {| limiter := l; results := results s; completed := completed s;
     finished := finished s; lost := lost s |}.

Inductive runEvent :=
| Loop (e : Throttle.event WorkItem)
| AllSettled.        (* the continuation of [await Promise.all(tasks)] runs *)

(** Every task promise is pending exactly while its entry is queued or in
    flight. *)
Definition noneOutstanding (s : RunState) : bool :=
  match Throttle.queue (limiter s), Throttle.running (limiter s) with
  | [], [] => true
  | _, _ => false
  end.

(** A promise of [tasks] rejects: [Promise.all] rejects with the first such
    value, and [runBenchmark] with it. *)
Definition rejectWith (err : Failure) (f : option (outcome RunOutput))
    : option (outcome RunOutput) :=
  match f with
  | None => Some (Thrown err)
  | Some settled => Some settled
  end.

(** The lines after [await Promise.all(tasks)]. *)
Definition finalize (opts : RunOptions) (env : Env) (s : RunState)
    : outcome RunOutput :=
  let output := {| outModels := models opts; outResults := results s;
                   summary := summarize (results s) |} in
  match writeReport env output with
  | None => Returned output
  | Some err => Thrown err
  end.

(** One turn of the event loop during a run.  The limiter is private to the
    run, so nothing else is scheduled.  A task that returns runs its [then]
    callback: the result is appended, [completed] counted, and
    [onProgress] called, whose throw rejects the promise in [tasks]; a task
    that throws rejects it at once. *)
Definition runStep (opts : RunOptions) (env : Env) (s : RunState)
    (e : runEvent) : option RunState :=
  match e with
  | Loop (Throttle.EvSchedule _ _) => None
  | Loop (Throttle.EvSettle i r) =>
      item ← Throttle.running (limiter s) !! i;
      body ← unitBody env (retries opts) (Throttle.fn item);
      l' ← Throttle.step (limiterOptions opts) (limiter s) (Throttle.EvSettle i r);
      match body, r with
      | Returned res, Throttle.Fulfilled =>
          Some {| limiter := l'; results := results s ++ [res];
                  completed := S (completed s);
                  finished :=
                    match onProgress env (S (completed s)) (total opts) res with
                    | None => finished s
                    | Some err => rejectWith err (finished s)
                    end;
                  lost := lost s |}
      | Thrown err, Throttle.Rejected =>
          Some {| limiter := l'; results := results s; completed := completed s;
                  finished := rejectWith err (finished s);
                  lost := lost s ++ [Throttle.fn item] |}
      | _, _ => None
      end
  | Loop e' =>
      l' ← Throttle.step (limiterOptions opts) (limiter s) e';
      Some (withLimiter l' s)
  | AllSettled =>
      match finished s with
      | None =>
          if noneOutstanding s then
            Some {| limiter := limiter s; results := results s;
                    completed := completed s;
                    finished := Some (finalize opts env s);
                    lost := lost s |}
          else None
      | Some _ => None
      end
  end.

Fixpoint runEvents (opts : RunOptions) (env : Env) (s : RunState)
    (evs : list runEvent) : option RunState :=
  match evs with
  | [] => Some s
  | e :: evs' =>
      match runStep opts env s e with
      | Some s' => runEvents opts env s' evs'
      | None => None
      end
  end.

(** Collaborators that do not throw where nothing would catch it: every
    failure record can be written, the progress callback returns, the
    report can be written. *)
Definition failuresWritable (env : Env) : Prop :=
  ∀ u err, writeTrace env u (failureResult env u err) = None.

Definition progressReturns (env : Env) : Prop :=
  ∀ done all r, onProgress env done all r = None.

Definition reportWritable (env : Env) : Prop :=
  ∀ out, writeReport env out = None.

(** The invariant of a run: every unit is queued, in flight, settled with
    its result appended, or lost; [completed] counts the results; the run
    returns only the results of all units, with nothing outstanding; and it
    rejects only with what a scheduled function, the progress callback or
    the writing of the report threw. *)
Record runOk (opts : RunOptions) (env : Env) (s : RunState) : Prop := {
  run_units :
    ∃ settled,
      (Throttle.fn <$> Throttle.queue (limiter s))
        ++ (Throttle.fn <$> Throttle.running (limiter s)) ++ settled ++ lost s
        ≡ₚ workItems opts
      ∧ Forall2 (λ u r, unitBody env (retries opts) u = Some (Returned r))
          settled (results s);
  run_lost :
    Forall (λ u, ∃ err, unitBody env (retries opts) u = Some (Thrown err)) (lost s);
  run_completed : completed s = length (results s);
  run_pending : finished s = None → lost s = [];
  run_returned :
    ∀ out, finished s = Some (Returned out) →
      outResults out = results s
      ∧ outModels out = models opts
      ∧ summary out = summarize (results s)
      ∧ writeReport env out = None
      ∧ Throttle.queue (limiter s) = []
      ∧ Throttle.running (limiter s) = []
      ∧ lost s = [];
  run_thrown :
    ∀ err, finished s = Some (Thrown err) →
      (∃ u, u ∈ lost s ∧ unitBody env (retries opts) u = Some (Thrown err))
      ∨ (∃ done r, onProgress env done (total opts) r = Some err)
      ∨ (∃ out, writeReport env out = Some err
                ∧ Throttle.queue (limiter s) = []
                ∧ Throttle.running (limiter s) = []
                ∧ lost s = [])
}.

End Runner.

(** ** Concrete inputs *)

Module Examples.

Import Runner.

(** One slot and one request per minute. *)
Definition limits : Throttle.LimiterOptions :=
  {| Throttle.maxConcurrent := Js.int 1;
     Throttle.maxRequestsPerMinute := Js.int 1;
     Throttle.maxTokensPerMinute := Js.int 120000 |}.

(** One and a half slots, as [--concurrency 1.5] sets them; and one and a
    half requests per minute, as [--max-rpm 1.5] does. *)
Definition fractionalSlots : Throttle.LimiterOptions :=
  {| Throttle.maxConcurrent := Js.Finite (Q2Qc (3 # 2));
     Throttle.maxRequestsPerMinute := Js.int 60;
     Throttle.maxTokensPerMinute := Js.int 120000 |}.

Definition fractionalRate : Throttle.LimiterOptions :=
  {| Throttle.maxConcurrent := Js.int 4;
     Throttle.maxRequestsPerMinute := Js.Finite (Q2Qc (3 # 2));
     Throttle.maxTokensPerMinute := Js.int 120000 |}.

(** What [--concurrency many] and [--max-tpm many] set: [Number("many")]. *)
Definition notANumber : Throttle.LimiterOptions :=
  {| Throttle.maxConcurrent := Js.NaN;
     Throttle.maxRequestsPerMinute := Js.int 60;
     Throttle.maxTokensPerMinute := Js.NaN |}.

(** Two tasks are scheduled and both [setImmediate] callbacks run. *)
Definition twoAtOnce : list (Throttle.event nat) :=
  [Throttle.EvSchedule 1%nat None; Throttle.EvSchedule 2%nat None;
   Throttle.EvImmediate; Throttle.EvImmediate].

Definition bothInFlight : Throttle.state nat :=
  {| Throttle.queue := []; Throttle.active := 2;
     Throttle.requestsTimestamps := [0; 0];
     Throttle.tokensTimestamps := [(0, 500%N); (0, 500%N)];
     Throttle.immediates := 0; Throttle.timers := []; Throttle.clock := 0;
     Throttle.running := [{| Throttle.fn := 1%nat; Throttle.tokens := 500 |};
                          {| Throttle.fn := 2%nat; Throttle.tokens := 500 |}];
     Throttle.admissions := [(0, 500%N); (0, 500%N)] |}.

(** Two tasks are scheduled; the first runs for 40 ms; the second is
    refused by the request budget, retried after 250 ms, refused again, and
    admitted by the retry that comes once the first admission is more than a
    minute old. *)
Definition twoTasks : list (Throttle.event nat) :=
  [Throttle.EvSchedule 1%nat None; Throttle.EvSchedule 2%nat (Some 80%N);
   Throttle.EvImmediate; Throttle.EvImmediate; Throttle.EvTick 40;
   Throttle.EvSettle 0 Throttle.Fulfilled; Throttle.EvImmediate;
   Throttle.EvTick 250; Throttle.EvTimer 0; Throttle.EvTick 59800;
   Throttle.EvTimer 0].

Definition afterTwoTasks : Throttle.state nat :=
  {| Throttle.queue := []; Throttle.active := 1;
     Throttle.requestsTimestamps := [60090];
     Throttle.tokensTimestamps := [(60090, 80%N)];
     Throttle.immediates := 0; Throttle.timers := []; Throttle.clock := 60090;
     Throttle.running := [{| Throttle.fn := 2%nat; Throttle.tokens := 80 |}];
     Throttle.admissions := [(0, 500%N); (60090, 80%N)] |}.

(** The first task is in flight, a second one has just been scheduled. *)
Definition saturating : list (Throttle.event nat) :=
  [Throttle.EvSchedule 1%nat None; Throttle.EvImmediate;
   Throttle.EvSchedule 2%nat None].

Definition saturated : Throttle.state nat :=
  {| Throttle.queue := [{| Throttle.fn := 2%nat; Throttle.tokens := 500 |}];
     Throttle.active := 1;
     Throttle.requestsTimestamps := [0];
     Throttle.tokensTimestamps := [(0, 500%N)];
     Throttle.immediates := 1; Throttle.timers := []; Throttle.clock := 0;
     Throttle.running := [{| Throttle.fn := 1%nat; Throttle.tokens := 500 |}];
     Throttle.admissions := [(0, 500%N)] |}.

(** The first task has settled after 40 ms; the second waits, and the one
    request of this minute is spent. *)
Definition outOfRequests : Throttle.state nat :=
  {| Throttle.queue := [{| Throttle.fn := 2%nat; Throttle.tokens := 80 |}];
     Throttle.active := 0;
     Throttle.requestsTimestamps := [0];
     Throttle.tokensTimestamps := [(0, 500%N)];
     Throttle.immediates := 1; Throttle.timers := []; Throttle.clock := 40;
     Throttle.running := [];
     Throttle.admissions := [(0, 500%N)] |}.

(** A transport error with status 500, and an operation that always fails
    with it. *)
Definition serverError : Failure :=
  {| isError := true; message := "500 Internal Server Error";
     asString := "Error: 500 Internal Server Error";
     status := Some (VNumber 500); responseStatus := None |}.

Definition alwaysServerError : nat → outcome (string * string) :=
  λ _, Thrown serverError.

Definition halfway : nat → Q := λ _, (1 # 2)%Q.

Definition threeAttempts : RetryRun (string * string) :=
  {| ended := Thrown serverError; invocations := 3;
     waits := [{| baseDelay := 500; timeoutMs := 600 |};
               {| baseDelay := 1000; timeoutMs := 1100 |}] |}.

(** Two models, one test, one slot; the first model answers, the second
    always fails with status 500. *)
Definition greeting : TestCase :=
  {| id := "greeting"; task := "translate"; prompt := "Translate: hello";
     expected := Some "kia ora"; evalSpec := "exact" |}.

Definition smallRun : RunOptions :=
  {| suite := [greeting];
     models := [ {| name := "alpha"; provider_id := "lab/alpha"; params := None |};
                 {| name := "beta"; provider_id := "lab/beta"; params := None |} ];
     concurrency := Js.int 1; maxRequestsPerMinute := Js.int 60;
     maxTokensPerMinute := Js.int 120000; retries := 2 |}.

Definition smallEnv : Env :=
  {| complete := λ u _, match index u with
                        | O => Returned ("kia ora", "{}")
                        | S _ => Thrown serverError
                        end;
     evaluateTest := λ _ _, Returned 1%Qc;
     random := λ _, halfway;
     elapsedMs := λ _, 35;
     elapsedInCatchMs := λ _, 36;
     writeFileSync := λ _ _ _, None;
     onProgress := λ _ _ _, None;
     writeReport := λ _, None |}.

Definition betaUnit : WorkItem :=
  {| index := 1;
     unitModel := {| name := "beta"; provider_id := "lab/beta"; params := None |};
     unitTest := greeting |}.

Definition smallSchedule : list runEvent :=
  [Loop Throttle.EvImmediate; Loop Throttle.EvImmediate;
   Loop (Throttle.EvSettle 0 Throttle.Fulfilled); Loop Throttle.EvImmediate;
   Loop (Throttle.EvSettle 0 Throttle.Fulfilled); Loop Throttle.EvImmediate;
   AllSettled].

Definition smallFinal : RunState :=
  default (runBenchmark smallRun)
    (runEvents smallRun smallEnv (runBenchmark smallRun) smallSchedule).

Definition smallOutput : RunOutput :=
  match finished smallFinal with
  | Some (Returned out) => out
  | _ => {| outModels := []; outResults := []; summary := summarize [] |}
  end.

(** A test whose id has 300 characters, and a file system that refuses
    file names of more than 255. *)
Definition longId : string := string_of_list_ascii (replicate 300 "a"%char).

Definition longTest : TestCase :=
  {| id := longId; task := "translate"; prompt := "Translate: thank you";
     expected := Some "nga mihi"; evalSpec := "exact" |}.

Definition nameTooLong : Failure :=
  {| isError := true; message := "ENAMETOOLONG: name too long, open";
     asString := "Error: ENAMETOOLONG: name too long, open";
     status := None; responseStatus := None |}.

Definition strictEnv : Env :=
  {| complete := complete smallEnv;
     evaluateTest := evaluateTest smallEnv;
     random := random smallEnv;
     elapsedMs := elapsedMs smallEnv;
     elapsedInCatchMs := elapsedInCatchMs smallEnv;
     writeFileSync := λ _ fileName _,
       if (255 <? String.length fileName)%nat then Some nameTooLong else None;
     onProgress := λ _ _ _, None;
     writeReport := λ _, None |}.

(** One model on the long test and the greeting: the completion call of
    the first unit succeeds. *)
Definition longFirst : RunOptions :=
  {| suite := [longTest; greeting];
     models := [ {| name := "alpha"; provider_id := "lab/alpha"; params := None |} ];
     concurrency := Js.int 1; maxRequestsPerMinute := Js.int 60;
     maxTokensPerMinute := Js.int 120000; retries := 2 |}.

(** The same with the tests exchanged: the completion call of the second
    unit, the one on the long test, fails with status 500 every time. *)
Definition longLast : RunOptions :=
  {| suite := [greeting; longTest];
     models := models longFirst;
     concurrency := Js.int 1; maxRequestsPerMinute := Js.int 60;
     maxTokensPerMinute := Js.int 120000; retries := 2 |}.

Definition longUnit (i : nat) : WorkItem :=
  {| index := i;
     unitModel := {| name := "alpha"; provider_id := "lab/alpha"; params := None |};
     unitTest := longTest |}.

(** Both units run, one after the other; [r1] and [r2] say how their
    promises settle. *)
Definition oneByOne (r1 r2 : Throttle.settlement) : list runEvent :=
  [Loop Throttle.EvImmediate; Loop Throttle.EvImmediate;
   Loop (Throttle.EvSettle 0 r1); Loop Throttle.EvImmediate;
   Loop (Throttle.EvSettle 0 r2); Loop Throttle.EvImmediate].

Definition afterLongFirst : RunState :=
  default (runBenchmark longFirst)
    (runEvents longFirst strictEnv (runBenchmark longFirst)
       (oneByOne Throttle.Rejected Throttle.Fulfilled)).

Definition afterLongLast : RunState :=
  default (runBenchmark longLast)
    (runEvents longLast strictEnv (runBenchmark longLast)
       (oneByOne Throttle.Fulfilled Throttle.Rejected)).

Definition passing (m tid : string) : TestResult :=
  {| testId := tid; model := m; providerId := m; resultPrompt := "Kia ora";
     response := "kia ora"; raw := None; score := 1%Qc; latencyMs := 12;
     resultExpected := None; error := None |}.

Definition scored (m : string) (sc : Qc) : TestResult :=
  {| testId := "t"; model := m; providerId := m; resultPrompt := "";
     response := ""; raw := None; score := sc; latencyMs := 0;
     resultExpected := None; error := None |}.

(** The list of the design document's aggregator example. *)
Definition threeScores : list TestResult :=
  [scored "A" 1%Qc; scored "A" 0%Qc; scored "B" (Q2Qc (1 # 2))].

(** A run of the model called [constructor], and one of [toString] beside
    an ordinary model. *)
Definition shadowed : list TestResult := [scored "constructor" 1%Qc].

Definition partlyShadowed : list TestResult :=
  [scored "A" 1%Qc; scored "toString" 0%Qc].

End Examples.

(** ** Further vocabulary for the limiter *)

Module Limits.

Import Throttle.

Section Limits.

Context {Task : Type}.

(** The entries that the [schedule] calls of an event sequence queue, in
    the order of the calls. *)
Fixpoint scheduledBy (evs : list (event Task)) : list (QueueEntry Task) :=
  match evs with
  | [] => []
  | EvSchedule f est :: evs' =>
      {| fn := f; tokens := default defaultEstimatedTokens est |} :: scheduledBy evs'
  | _ :: evs' => scheduledBy evs'
  end.

(** The callbacks that will still call [runNext]. *)
Definition pendingCalls (s : state Task) : nat :=
  (immediates s + length (timers s))%nat.

(** Nothing queued can be forgotten: the pending calls of [runNext] and the
    tasks in flight together are as many as the queued entries, or so many
    that the test [active >= maxConcurrent] holds of their number (for a
    ceiling of [c] slots: they are at least the smaller of the queue length
    and [c]). *)
Definition wakeOk (o : LimiterOptions) (s : state Task) : Prop :=
  (length (queue s) ≤ pendingCalls s + active s)%nat
  ∨ Js.geb (Z.of_nat (pendingCalls s + active s)) (maxConcurrent o) = true.

(** A log entry that [prune] keeps at time [now]. *)
Definition fresh (now t : Z) : bool := negb (now - t >? windowMs).

(** The logs are in time order and nothing in them, and no retry, lies
    further ahead than the code put it. *)
Record clockOk (s : state Task) : Prop := {
  clock_sync : requestsTimestamps s = (tokensTimestamps s).*1;
  clock_sorted : StronglySorted Z.le (requestsTimestamps s);
  clock_past : Forall (λ t, t ≤ clock s) (requestsTimestamps s);
  clock_timers : Forall (λ due, due ≤ clock s + retryDelayMs) (timers s)
}.

(** Every task in flight settles, oldest first. *)
Definition settleAll (n : nat) : list (event Task) :=
  replicate n (EvSettle 0 Fulfilled).

(** The events that bring the head of the queue into flight from any state:
    the tasks in flight settle, a minute passes, and a pending call of
    [runNext] runs. *)
Definition admitHead (s : state Task) : list (event Task) :=
  settleAll (length (running s))
  ++ [EvTick 60001;
      match immediates s, running s with
      | O, [] => EvTimer 0
      | _, _ => EvImmediate
      end].

End Limits.

End Limits.

(** ** Further vocabulary for the runner *)

Module Totals.

Import Runner.

(** The time one call of [withRetry] spends in its [setTimeout] waits. *)
Definition totalWait {T} (r : RetryRun T) : Z :=
  foldr (λ w acc, timeoutMs w + acc) 0 (waits r).

(** The entry [runBenchmark] queues for a unit. *)
Definition entryOf (u : WorkItem) : Throttle.QueueEntry WorkItem :=
  {| Throttle.fn := u; Throttle.tokens := estimateTokens (prompt (unitTest u)) |}.





End Totals.

(** ** The evaluator: [evaluateTest] *)

Module Evaluate.

Import Runner.

(** *** [escapeRegex] *)

(** The characters the pattern of [escapeRegex] matches: the dot, the
    quantifiers, the anchors, the brackets of all three kinds, the bar and
    the backslash (code 092). *)
Definition specialChar (c : ascii) : bool :=
  bool_decide (c ∈ [".";"*";"+";"?";"^";"$";"{";"}";"(";")";"|";"[";"]";"092"]%char).

(** [input.replace(pattern, ...)]: every such character gets a backslash
    put before it. *)
Fixpoint escapeRegex (s : string) : string :=
  match s with
  | EmptyString => EmptyString
  | String c s' =>
      if specialChar c then String "092" (String c (escapeRegex s'))
      else String c (escapeRegex s')
  end.


(** *** The judge's reply *)

(** The reply is searched for the first [0] or [1], optionally followed by
    a dot and digits. *)

Definition digitOf (c : ascii) : option nat :=
  let n := nat_of_ascii c in
  if (48 <=? n)%nat && (n <=? 57)%nat then Some (n - 48)%nat else None.

(** The digits a string starts with, as many as there are. *)
Fixpoint leadingDigits (s : string) : list nat :=
  match s with
  | EmptyString => []
  | String c s' =>
      match digitOf c with
      | Some d => d :: leadingDigits s'
      | None => []
      end
  end.

(** The value of the decimals [0.d1d2...]. *)
Definition decimals (ds : list nat) : Qc :=
  foldr (λ d acc, ((QcOfNat d + acc) / QcOfNat 10)%Qc) 0%Qc ds.

(** The number matched at a [0] or [1] followed by [rest]: the decimals
    belong to the match only if a dot and at least one digit follow. *)
Definition matchedAt (lead : nat) (rest : string) : Qc :=
  match rest with
  | String "."%char rest' =>
      match leadingDigits rest' with
      | [] => QcOfNat lead
      | ds => (QcOfNat lead + decimals ds)%Qc
      end
  | _ => QcOfNat lead
  end.

(** The digits of the fraction that belongs to a match followed by
    [rest]. *)
Definition fraction (rest : string) : list nat :=
  match rest with
  | String "."%char rest' => leadingDigits rest'
  | _ => []
  end.

(** [Number(m[0])] for the leftmost match, if there is one; the value of
    the decimals is taken exactly, where [Number] gives the nearest
    double. *)
Fixpoint firstMatch (text : string) : option Qc :=
  match text with
  | EmptyString => None
  | String c rest =>
      if Ascii.eqb c "0" then Some (matchedAt 0 rest)
      else if Ascii.eqb c "1" then Some (matchedAt 1 rest)
      else firstMatch rest
  end.

(** The first [0] or [1] of a text. *)
Fixpoint firstBit (text : string) : option bool :=
  match text with
  | EmptyString => None
  | String c rest =>
      if Ascii.eqb c "0" then Some false
      else if Ascii.eqb c "1" then Some true
      else firstBit rest
  end.

(** The score [evaluateLLMJudge] returns for the judge's reply:
    [Math.max(0, Math.min(1, val))], and 0 without a match. *)
Definition minQc (a b : Qc) : Qc := if bool_decide (a ≤ b)%Qc then a else b.
Definition maxQc (a b : Qc) : Qc := if bool_decide (a ≤ b)%Qc then b else a.

Definition judgeScore (text : string) : Qc :=
  match firstMatch text with
  | None => 0%Qc
  | Some val => maxQc 0 (minQc 1 val)
  end.

(** *** [evaluateExact] *)

(** [test.expected] after [String(...)]: missing or [null], a single value,
    or an array of values. *)
Inductive Expected :=
| NoExpected
| OneExpected (e : string)
| ManyExpected (es : list string).

Definition expectedList (e : Expected) : list string :=
  match e with
  | NoExpected => [""%string]
  | OneExpected x => [x]
  | ManyExpected xs => xs
  end.

Section Exact.

(** [normalizeText(_, norm)] for the options of the test, and the test of
    the word-boundary pattern built from an expected answer. *)
Variables (normalize : string → string) (wordMatch : string → string → bool).

(** The [for] loop of [evaluateExact]. *)
Fixpoint exactLoop (allowPrefix allowSubstring : bool) (candidate : string)
    (expected : list string) : Qc :=
  match expected with
  | [] => 0%Qc
  | e :: rest =>
      let ee := normalize e in
      if String.eqb ee candidate then 1%Qc
      else if allowPrefix && String.prefix ee candidate then 1%Qc
      else if allowSubstring && wordMatch (escapeRegex ee) candidate then 1%Qc
      else exactLoop allowPrefix allowSubstring candidate rest
  end.

Definition evaluateExact (allowPrefix allowSubstring : bool) (expected : Expected)
    (modelResponse : string) : Qc :=
  exactLoop allowPrefix allowSubstring (normalize modelResponse)
    (expectedList expected).

End Exact.

End Evaluate.

(** ** The command line: [resolveModels] *)

Module Cli.

Import Runner.

(** An entry of [models.config.json] that passes the type guard; [name]
    may be missing. *)
Record ModelConfig := {
  cfgName : option string;
  cfgProvider : string;
  cfgParams : option string
}.

(** The parsed configuration: not an array, or an array whose entries do
    ([Some]) or do not ([None]) pass the guard. *)
Inductive ConfigJson :=
| NotArray
| ConfigArray (entries : list (option ModelConfig)).

Definition configList (cfg : ConfigJson) : list ModelConfig :=
  match cfg with
  | NotArray => []
  | ConfigArray entries => omap (λ e, e) entries
  end.

(** [m.name === r || m.provider_id === r] *)
Definition answersTo (r : string) (m : ModelConfig) : bool :=
  bool_decide (cfgName m = Some r) || bool_decide (cfgProvider m = r).

Definition resolveOne (known : list ModelConfig) (r : string) : ModelSpec :=
  match List.find (answersTo r) known with
  | Some hit =>
      {| name := default (cfgProvider hit) (cfgName hit);
         provider_id := cfgProvider hit; params := cfgParams hit |}
  | None => {| name := r; provider_id := r; params := None |}
  end.

Definition resolveModels (requested : list string) (cfg : ConfigJson)
    : list ModelSpec :=
  List.map (resolveOne (configList cfg)) requested.

End Cli.

(** ** More concrete inputs *)

Module Cases.

Import Runner.

(** A token ceiling below the default cost of a task. *)
Definition tight : Throttle.LimiterOptions :=
  {| Throttle.maxConcurrent := Js.int 1;
     Throttle.maxRequestsPerMinute := Js.int 60;
     Throttle.maxTokensPerMinute := Js.int 100 |}.

Definition costly : Throttle.QueueEntry nat :=
  {| Throttle.fn := 1%nat; Throttle.tokens := 500 |}.

Definition costlyQueued : Throttle.state nat :=
  Throttle.schedule 1%nat None Throttle.createLimiter.

(** The costly task is tried twice; a cheap one is scheduled behind it and
    tried as well. *)
Definition tryingHard : list (Throttle.event nat) :=
  [Throttle.EvImmediate; Throttle.EvTick 250; Throttle.EvTimer 0;
   Throttle.EvSchedule 2%nat (Some 10%N); Throttle.EvImmediate].

Definition stillQueued : Throttle.state nat :=
  {| Throttle.queue := [costly; {| Throttle.fn := 2%nat; Throttle.tokens := 10 |}];
     Throttle.active := 0; Throttle.requestsTimestamps := [];
     Throttle.tokensTimestamps := []; Throttle.immediates := 0;
     Throttle.timers := [500; 500]; Throttle.clock := 250;
     Throttle.running := []; Throttle.admissions := [] |}.

(** An operation that answers 500 once and then succeeds. *)
Definition flaky : nat → outcome (string * string) :=
  λ k, match k with
       | O => Thrown Examples.serverError
       | S _ => Returned ("kia ora", "{}")
       end.

(** The small run with a token ceiling that no prompt fits. *)
Definition starved : RunOptions :=
  {| suite := suite Examples.smallRun; models := models Examples.smallRun;
     concurrency := Js.int 1; maxRequestsPerMinute := Js.int 60;
     maxTokensPerMinute := Js.int 40; retries := 2 |}.

Definition alphaUnit : WorkItem :=
  {| index := 0;
     unitModel := {| name := "alpha"; provider_id := "lab/alpha"; params := None |};
     unitTest := Examples.greeting |}.

Definition starvedState : RunState :=
  default (runBenchmark starved)
    (runEvents starved Examples.smallEnv (runBenchmark starved)
       [Loop Throttle.EvImmediate; Loop (Throttle.EvTick 250);
        Loop (Throttle.EvTimer 0)]).

(** The small run when the first unit has settled and the second is in
    flight. *)
Definition betaInFlight : RunState :=
  default (runBenchmark Examples.smallRun)
    (runEvents Examples.smallRun Examples.smallEnv (runBenchmark Examples.smallRun)
       (take 4 Examples.smallSchedule)).

(** Results with scores 0 and 1, in two orders. *)
Definition wholeScores : list TestResult :=
  [Examples.scored "A" 1%Qc; Examples.scored "A" 0%Qc; Examples.scored "B" 1%Qc].

Definition wholeScoresLater : list TestResult :=
  [Examples.scored "B" 1%Qc; Examples.scored "A" 1%Qc; Examples.scored "A" 0%Qc].

(** A models file with an entry without name. *)
Definition modelsFile : Cli.ConfigJson :=
  Cli.ConfigArray
    [Some {| Cli.cfgName := Some "alpha"; Cli.cfgProvider := "lab/alpha";
             Cli.cfgParams := None |};
     None;
     Some {| Cli.cfgName := None; Cli.cfgProvider := "lab/beta";
             Cli.cfgParams := Some "{}" |}].

End Cases.

(** * Comparisons with a JavaScript number *)

Section JsFacts.

Import Js.

Lemma ofZ_le (a b : Z) : (ofZ a ≤ ofZ b)%Qc ↔ a ≤ b.
Proof.
  unfold ofZ, Qcle. simpl. rewrite !Qred_correct. unfold Qle. simpl. lia.
Qed.

Lemma ofZ_lt (a b : Z) : (ofZ a < ofZ b)%Qc ↔ a < b.
Proof.
  unfold ofZ, Qclt. simpl. rewrite !Qred_correct. unfold Qlt. simpl. lia.
Qed.

(** A test that holds of a count holds of every larger one. *)
Lemma geb_mono (a b : Z) (m : number) : a ≤ b → geb a m = true → geb b m = true.
Proof.
  intros Hab. destruct m as [| |q|]; simpl; try done.
  rewrite !bool_decide_eq_true. intros Hq.
  eapply Qcle_trans; [exact Hq|]. by apply ofZ_le.
Qed.

Lemma gtb_mono (a b : Z) (m : number) : a ≤ b → gtb a m = true → gtb b m = true.
Proof.
  intros Hab. destruct m as [| |q|]; simpl; try done.
  rewrite !bool_decide_eq_true. intros Hq.
  eapply Qclt_le_trans; [exact Hq|]. by apply ofZ_le.
Qed.

Lemma geb_lt (a k : Z) (m : number) : geb a m = false → geb k m = true → a < k.
Proof.
  intros Ha Hk. destruct (Z.lt_ge_cases a k) as [?|Hle]; [done|].
  by rewrite (geb_mono k a m) in Ha.
Qed.

Lemma gtb_le (a b : Z) (m : number) : gtb a m = false → b ≤ a → gtb b m = false.
Proof.
  intros Ha Hba. destruct (gtb b m) eqn:Hb; [|done].
  by rewrite (gtb_mono b a m) in Ha.
Qed.

Lemma geb_int (a c : Z) : geb a (int c) = bool_decide (c ≤ a).
Proof. simpl. apply bool_decide_ext, ofZ_le. Qed.

Lemma gtb_int (a c : Z) : gtb a (int c) = bool_decide (c < a).
Proof. simpl. apply bool_decide_ext, ofZ_lt. Qed.

Lemma leb_int (a c : Z) : leb a (int c) = bool_decide (a ≤ c).
Proof. simpl. apply bool_decide_ext, ofZ_le. Qed.

(** Under a ceiling that is a number from 0 on, a sum that is not above it
    is at most it. *)
Lemma leb_of_gtb (a : Z) (m : number) :
  leb 0 m = true → gtb a m = false → leb a m = true.
Proof.
  destruct m as [| |q|]; simpl; try done.
  rewrite bool_decide_eq_false, !bool_decide_eq_true. intros _ Hq.
  by apply Qcnot_lt_le.
Qed.

(** A counter that stays below every count the test holds of is at most a
    ceiling that counts. *)
Lemma counts_leb (n : nat) (m : number) :
  counts m → (∀ k : nat, geb (Z.of_nat k) m = true → (n ≤ k)%nat) →
  leb (Z.of_nat n) m = true.
Proof.
  intros [->|[c ->]] Hn; [done|].
  rewrite leb_int. apply bool_decide_eq_true.
  enough (n ≤ c)%nat by lia. apply Hn.
  rewrite geb_int. by apply bool_decide_eq_true.
Qed.

Lemma int_bound (n c : nat) (m : number) :
  m = int (Z.of_nat c) →
  (∀ k : nat, geb (Z.of_nat k) m = true → (n ≤ k)%nat) → (n ≤ c)%nat.
Proof.
  intros -> Hn. apply Hn. rewrite geb_int. by apply bool_decide_eq_true.
Qed.

End JsFacts.

(** * Properties of the limiter *)

Section LimiterFacts.

Import Throttle.

Context {Task : Type}.
Variable o : LimiterOptions.

Implicit Types (s : state Task) (evs : list (event Task)).

(** A property kept by every turn of the event loop holds after any run. *)
Lemma run_preserves (P : state Task → Prop) :
  (∀ s (e : event Task) s', P s → step o s e = Some s' → P s') →
  ∀ evs s s', P s → run o s evs = Some s' → P s'.
Proof.
  intros Hstep evs. induction evs as [|e evs IH]; intros s s' HP Hrun; simpl in Hrun.
  - by simplify_eq.
  - destruct (step o s e) as [s1|] eqn:E; [|done]. eauto.
Qed.

Lemma runNext_cases s : runNextCase o s (runNext o s).
Proof.
  unfold runNext.
  destruct (Js.geb (Z.of_nat (active s)) (maxConcurrent o)) eqn:Hfull.
  - constructor. by left.
  - destruct (queue s) as [|item rest] eqn:Hq.
    + constructor. by right.
    + destruct (throttled _ _ _ _) eqn:Hthr.
      * by apply RunNextThrottled.
      * by apply RunNextAccepted.
Qed.

(** *** Concurrency ceiling *)

Lemma runNext_concurrencyOk s : concurrencyOk o s → concurrencyOk o (runNext o s).
Proof.
  intros [Hact Hle].
  destruct (runNext_cases s) as [ | |item rest Hfree Hq Hthr]; [done..|].
  split; simpl.
  - rewrite length_app. simpl. lia.
  - intros k Hk. pose proof (geb_lt _ _ _ Hfree Hk). lia.
Qed.

Lemma step_concurrencyOk s (e : event Task) s' :
  concurrencyOk o s → step o s e = Some s' → concurrencyOk o s'.
Proof.
  intros HI Hs. destruct e as [f est| |i|i r|d]; simpl in Hs.
  - by simplify_eq.
  - destruct (immediates s) eqn:E; [done|]. simplify_eq.
    by apply runNext_concurrencyOk.
  - destruct (timers s !! i) as [due|] eqn:E; [|done].
    destruct (due <=? clock s); [|done]. simplify_eq.
    by apply runNext_concurrencyOk.
  - destruct (running s !! i) as [item|] eqn:E; [|done]. simplify_eq.
    destruct HI as [Hact Hle]. pose proof (lookup_lt_Some _ _ _ E).
    split; simpl.
    + rewrite length_delete by eauto. lia.
    + intros k Hk. specialize (Hle k Hk). lia.
  - by simplify_eq.
Qed.

Lemma createLimiter_concurrencyOk : concurrencyOk o (createLimiter (Task:=Task)).
Proof. split; simpl; [done|]. intros k _. lia. Qed.

(** C1, as the code has it.  At every state the limiter can reach, the
    tasks in flight are exactly [active] many.  When [maxConcurrent] is a
    whole number from 0 on (or [Infinity]), [active <= maxConcurrent]
    holds.  For every ceiling, [active] stays at or below every count of
    which the test [active >= maxConcurrent] holds: a ceiling between two
    whole numbers acts as the larger one, and [NaN], of which the test
    never holds, bounds nothing. *)
Theorem active_never_exceeds_maxConcurrent evs s :
  run o createLimiter evs = Some s →
  length (running s) = active s
  ∧ (Js.counts (maxConcurrent o) →
     Js.leb (Z.of_nat (active s)) (maxConcurrent o) = true)
  ∧ (∀ c : nat, maxConcurrent o = Js.int (Z.of_nat c) → (active s ≤ c)%nat)
  ∧ (∀ k : nat, Js.geb (Z.of_nat k) (maxConcurrent o) = true → (active s ≤ k)%nat).
Proof.
  intros Hrun.
  assert (concurrencyOk o s) as [Hact Hle].
  { eapply (run_preserves (concurrencyOk o));
      [apply step_concurrencyOk|apply createLimiter_concurrencyOk|exact Hrun]. }
  split_and!; [done| | |done].
  - intros Hcounts. by apply counts_leb.
  - intros c Hc. by apply (int_bound _ _ _ Hc).
Qed.

(** *** Rate budgets *)

Lemma tokensUsedOf_acc (l : list (Z * N)) (a : N) :
  foldl (λ acc e, (acc + e.2)%N) a l = (a + tokensUsedOf l)%N.
Proof.
  unfold tokensUsedOf. revert a.
  induction l as [|e l IH]; intros a; simpl; [lia|].
  rewrite (IH (a + e.2)%N), (IH (0 + e.2)%N). lia.
Qed.

Lemma tokensUsedOf_cons e (l : list (Z * N)) :
  tokensUsedOf (e :: l) = (e.2 + tokensUsedOf l)%N.
Proof. unfold tokensUsedOf at 1. simpl. by rewrite tokensUsedOf_acc. Qed.

Lemma tokensUsedOf_app (l1 l2 : list (Z * N)) :
  tokensUsedOf (l1 ++ l2) = (tokensUsedOf l1 + tokensUsedOf l2)%N.
Proof.
  induction l1 as [|e l1 IH]; simpl.
  - unfold tokensUsedOf at 2. simpl. lia.
  - rewrite !tokensUsedOf_cons, IH. lia.
Qed.

Lemma tokensUsedOf_filter (P : Z * N → bool) (l : list (Z * N)) :
  (tokensUsedOf (List.filter P l) ≤ tokensUsedOf l)%N.
Proof.
  induction l as [|e l IH]; simpl; [done|].
  destruct (P e); rewrite ?tokensUsedOf_cons; lia.
Qed.

(** What [prune] removes is a prefix, all of it older than the window. *)
Lemma pruneTokens_split now (l : list (Z * N)) :
  ∃ old, l = old ++ pruneTokens now l ∧ Forall (λ e, now - e.1 > windowMs) old.
Proof.
  induction l as [|e l (old & Heq & Hold)]; simpl.
  - by exists [].
  - destruct (Z.gtb_spec (now - e.1) windowMs) as [Hgt|Hle].
    + exists (e :: old). split; [simpl; congruence|]. constructor; [lia|done].
    + by exists [].
Qed.

Lemma pruneRequests_fst now (l : list (Z * N)) :
  pruneRequests now l.*1 = (pruneTokens now l).*1.
Proof.
  induction l as [|e l IH]; simpl; [done|].
  by destruct (now - e.1 >? windowMs).
Qed.

Lemma filter_outside T (l : list (Z * N)) :
  Forall (λ e, e.1 < T - windowMs) l → List.filter (inWindow T) l = [].
Proof.
  induction 1 as [|e l He _ IH]; simpl; [done|].
  unfold inWindow at 1. destruct (Z.leb_spec (T - windowMs) e.1); [lia|]. done.
Qed.

(** A part of a log that passed the token test passes it. *)
Lemma tokensOk_part (l l' : list (Z * N)) :
  tokensOk o l → (l = [] → l' = []) → (tokensUsedOf l' ≤ tokensUsedOf l)%N →
  tokensOk o l'.
Proof.
  intros [->|Hok] Hnil Hle; [left; by apply Hnil|].
  right. apply (gtb_le _ _ _ Hok). lia.
Qed.

Lemma tokensOk_leb (l : list (Z * N)) :
  Js.leb 0 (maxTokensPerMinute o) = true → tokensOk o l →
  Js.leb (Z.of_N (tokensUsedOf l)) (maxTokensPerMinute o) = true.
Proof.
  intros Hzero [->|Hok]; [done|]. by apply leb_of_gtb.
Qed.

Lemma runNext_rateOk s : rateOk o s → rateOk o (runNext o s).
Proof.
  intros [Hsync Hreq Htok (old & Hhist & Hold) Hwin].
  destruct (pruneTokens_split (clock s) (tokensTimestamps s)) as (cut & Hcut & Hcutold).
  assert (length (pruneTokens (clock s) (tokensTimestamps s))
          ≤ length (tokensTimestamps s))%nat as Hlen.
  { rewrite Hcut at 2. rewrite length_app. lia. }
  assert (tokensOk o (pruneTokens (clock s) (tokensTimestamps s))) as Htok'.
  { apply (tokensOk_part (tokensTimestamps s)); [done| |].
    - intros Hnil. by rewrite Hnil.
    - rewrite Hcut at 2. rewrite tokensUsedOf_app. lia. }
  assert (admissions s = (old ++ cut) ++ pruneTokens (clock s) (tokensTimestamps s)
          ∧ Forall (λ e, clock s - e.1 > windowMs) (old ++ cut)) as [Hhist' Hold'].
  { split; [rewrite <- (assoc_L (++)); congruence|]. by apply Forall_app. }
  destruct (runNext_cases s) as [ |item rest Hact Hq Hthr|item rest Hact Hq Hthr].
  - constructor; eauto.
  - constructor; simpl; try done.
    + by rewrite Hsync, pruneRequests_fst.
    + intros k Hk. rewrite Hsync, pruneRequests_fst, length_fmap.
      specialize (Hreq k Hk). rewrite Hsync, length_fmap in Hreq. lia.
    + eauto.
  - unfold throttled in Hthr. apply orb_false_iff in Hthr as [Hr Ht].
    rewrite Hsync, pruneRequests_fst, length_fmap in Hr.
    assert (tokensUsedOf (pruneTokens (clock s) (tokensTimestamps s)
                            ++ [(clock s, tokens item)])
            = (tokensUsedOf (pruneTokens (clock s) (tokensTimestamps s))
               + tokens item)%N) as Hsum.
    { rewrite tokensUsedOf_app, tokensUsedOf_cons.
      change (tokensUsedOf []) with 0%N. simpl. lia. }
    constructor; simpl.
    + by rewrite Hsync, pruneRequests_fst, fmap_app.
    + intros k Hk. pose proof (geb_lt _ _ _ Hr Hk).
      rewrite Hsync, pruneRequests_fst, length_app, length_fmap. simpl. lia.
    + right. by rewrite Hsum.
    + exists (old ++ cut). split; [|done].
      rewrite Hhist'. by rewrite <- (assoc_L (++)).
    + intros T. unfold requestsIn.
      destruct (Z.lt_ge_cases T (clock s)) as [Hbefore|Hafter].
      * rewrite List.filter_app. simpl. unfold inWindow at 2 4. simpl.
        destruct (Z.leb_spec (clock s) T); [lia|].
        rewrite andb_false_r, app_nil_r. apply Hwin.
      * rewrite Hhist', <- (assoc_L (++)), List.filter_app.
        rewrite (filter_outside T (old ++ cut)).
        2:{ eapply Forall_impl; [exact Hold'|]. simpl. intros e He. lia. }
        simpl. split.
        -- intros k Hk. pose proof (geb_lt _ _ _ Hr Hk).
           etrans; [apply List.filter_length_le|].
           rewrite length_app. simpl. lia.
        -- right. apply (gtb_le _ _ _ Ht). rewrite <- Hsum.
           pose proof (tokensUsedOf_filter (inWindow T)
             (pruneTokens (clock s) (tokensTimestamps s) ++ [(clock s, tokens item)])).
           lia.
Qed.

Lemma step_rateOk s (e : event Task) s' : rateOk o s → step o s e = Some s' → rateOk o s'.
Proof.
  intros HI Hs. destruct e as [f est| |i|i r|d]; simpl in Hs.
  - simplify_eq. by destruct HI.
  - destruct (immediates s) eqn:E; [done|]. simplify_eq.
    apply runNext_rateOk. by destruct HI.
  - destruct (timers s !! i) as [due|] eqn:E; [|done].
    destruct (due <=? clock s); [|done]. simplify_eq.
    apply runNext_rateOk. by destruct HI.
  - destruct (running s !! i) as [item|] eqn:E; [|done]. simplify_eq.
    by destruct HI.
  - simplify_eq. destruct HI as [? ? ? (old & Hh & Hold) ?].
    constructor; simpl; try done.
    exists old. split; [done|].
    eapply Forall_impl; [exact Hold|]. simpl. intros e He. lia.
Qed.

Lemma createLimiter_rateOk : rateOk o (createLimiter (Task:=Task)).
Proof.
  constructor; simpl; try done.
  - intros k _. lia.
  - by left.
  - by exists [].
  - intros T. unfold requestsIn. simpl. split; [intros k _; lia|by left].
Qed.

Lemma step_accepts_at_most_one s (e : event Task) s' :
  step o s e = Some s' → (length (admissions s') ≤ S (length (admissions s)))%nat.
Proof.
  assert (∀ s0, length (admissions (runNext o s0)) ≤ S (length (admissions s0)))%nat as Hrn.
  { intros s0. destruct (runNext_cases s0); simpl; rewrite ?length_app; simpl; lia. }
  intros Hs. destruct e as [f est| |i|i r|d]; simpl in Hs.
  - simplify_eq. simpl. lia.
  - destruct (immediates s) eqn:E; [done|]. simplify_eq. apply (Hrn (setImmediates _ s)).
  - destruct (timers s !! i) as [due|] eqn:E; [|done].
    destruct (due <=? clock s); [|done]. simplify_eq. apply (Hrn (setTimers _ s)).
  - destruct (running s !! i) as [item|] eqn:E; [|done]. simplify_eq. simpl. lia.
  - simplify_eq. simpl. lia.
Qed.

(** C2, as the code has it.  At every state the limiter can reach: when
    [maxRequestsPerMinute] is a whole number from 0 on (or [Infinity]), the
    request log and the admissions of every 60-second window number at most
    [maxRequestsPerMinute]; when [maxTokensPerMinute] is a number from 0
    on, whole or not, the token log and the estimated costs admitted in
    every 60-second window sum to at most [maxTokensPerMinute]; for every
    ceiling, the request counts stay at or below every count of which the
    test [pendingRequests >= maxRequestsPerMinute] holds; and one turn of
    the event loop admits at most one item. *)
Theorem rate_budgets_hold evs s :
  run o createLimiter evs = Some s →
  (Js.counts (maxRequestsPerMinute o) →
     Js.leb (Z.of_nat (length (requestsTimestamps s))) (maxRequestsPerMinute o) = true
     ∧ ∀ T, Js.leb (Z.of_nat (requestsIn T (admissions s)))
                   (maxRequestsPerMinute o) = true)
  ∧ (Js.leb 0 (maxTokensPerMinute o) = true →
     Js.leb (Z.of_N (tokensUsedOf (tokensTimestamps s))) (maxTokensPerMinute o) = true
     ∧ ∀ T, Js.leb (Z.of_N (tokensIn T (admissions s))) (maxTokensPerMinute o) = true)
  ∧ (∀ k : nat, Js.geb (Z.of_nat k) (maxRequestsPerMinute o) = true →
       (length (requestsTimestamps s) ≤ k)%nat
       ∧ ∀ T, (requestsIn T (admissions s) ≤ k)%nat)
  ∧ (∀ (e : event Task) s', step o s e = Some s' →
             (length (admissions s') ≤ S (length (admissions s)))%nat).
Proof.
  intros Hrun.
  assert (rateOk o s) as [_ Hreq Htok _ Hwin].
  { eapply (run_preserves (rateOk o)); [apply step_rateOk| |exact Hrun].
    apply createLimiter_rateOk. }
  split_and!.
  - intros Hcounts. split; [by apply counts_leb|].
    intros T. apply counts_leb; [done|]. apply Hwin.
  - intros Hzero. split; [by apply tokensOk_leb|].
    intros T. apply tokensOk_leb; [done|]. apply Hwin.
  - intros k Hk. split; [by apply Hreq|]. intros T. by apply Hwin.
  - apply step_accepts_at_most_one.
Qed.

(** *** What a refused admission does *)

(** C3, as the code has it.  With an item at the head of the queue: when the
    request or the token budget refuses it, [runNext] puts it back at the
    front, leaves the rest of the queue in order, admits nothing and
    schedules one retry 250 ms later; when the test
    [active >= maxConcurrent] holds, [runNext] returns before it dequeues
    anything, so the queue is untouched and no retry timer is scheduled;
    the next attempt is the [setImmediate(runNext)] that every settlement
    queues. *)
Theorem refused_head_stays_in_front s item rest :
  queue s = item :: rest →
  (Js.geb (Z.of_nat (active s)) (maxConcurrent o) = false →
   Js.geb (Z.of_nat (length (pruneRequests (clock s) (requestsTimestamps s))))
     (maxRequestsPerMinute o) = true
   ∨ Js.gtb (Z.of_N (tokensUsedOf (pruneTokens (clock s) (tokensTimestamps s))
                     + tokens item))
       (maxTokensPerMinute o) = true →
   queue (runNext o s) = item :: rest
   ∧ timers (runNext o s) = timers s ++ [clock s + 250]
   ∧ active (runNext o s) = active s
   ∧ running (runNext o s) = running s
   ∧ admissions (runNext o s) = admissions s)
  ∧ (Js.geb (Z.of_nat (active s)) (maxConcurrent o) = true → runNext o s = s)
  ∧ (∀ inFlight, immediates (settle inFlight s) = S (immediates s)).
Proof.
  intros Hq. split_and!; [| |done].
  - intros Hact Hbudget.
    assert (throttled o (pruneRequests (clock s) (requestsTimestamps s))
              (pruneTokens (clock s) (tokensTimestamps s)) item = true) as Hthr.
    { unfold throttled. apply orb_true_iff.
      destruct Hbudget as [Hr|Ht]; [by left|by right]. }
    unfold runNext. rewrite Hact, Hq, Hthr. done.
  - intros Hfull. unfold runNext. by rewrite Hfull.
Qed.

(** *** The default cost *)

(** C10.  [schedule] without an estimate queues the task with a cost of 500
    tokens; whenever that entry is the one [runNext] examines and neither
    the concurrency ceiling nor the request budget is in the way, it is
    admitted, and logged with cost 500, if the test
    [tokensUsed + 500 > maxTokensPerMinute] on the pruned token log fails,
    and put back with a retry if the test holds. *)
Theorem omitted_estimate_costs_500 (f : Task) :
  (∀ s, queue (schedule f None s) = queue s ++ [{| fn := f; tokens := 500 |}])
  ∧ (∀ s rest,
       queue s = {| fn := f; tokens := 500 |} :: rest →
       Js.geb (Z.of_nat (active s)) (maxConcurrent o) = false →
       Js.geb (Z.of_nat (length (pruneRequests (clock s) (requestsTimestamps s))))
         (maxRequestsPerMinute o) = false →
       let used := tokensUsedOf (pruneTokens (clock s) (tokensTimestamps s)) in
       (Js.gtb (Z.of_N (used + 500)) (maxTokensPerMinute o) = false →
        queue (runNext o s) = rest
        ∧ running (runNext o s) = running s ++ [{| fn := f; tokens := 500 |}]
        ∧ tokensTimestamps (runNext o s)
          = pruneTokens (clock s) (tokensTimestamps s) ++ [(clock s, 500%N)])
       ∧ (Js.gtb (Z.of_N (used + 500)) (maxTokensPerMinute o) = true →
          queue (runNext o s) = {| fn := f; tokens := 500 |} :: rest
          ∧ running (runNext o s) = running s
          ∧ tokensTimestamps (runNext o s)
            = pruneTokens (clock s) (tokensTimestamps s)
          ∧ timers (runNext o s) = timers s ++ [clock s + 250])).
Proof.
  split; [done|].
  intros s rest Hq Hact Hreq used. subst used.
  unfold runNext. rewrite Hact, Hq. unfold throttled. rewrite Hreq. simpl.
  split; intros Htok; by rewrite Htok.
Qed.

End LimiterFacts.

(** The limiter on a concrete schedule. *)

Lemma active_never_exceeds_maxConcurrent_witness :
  Throttle.run Examples.limits Throttle.createLimiter Examples.twoTasks
    = Some Examples.afterTwoTasks
  ∧ length (Throttle.running Examples.afterTwoTasks)
      = Throttle.active Examples.afterTwoTasks
  ∧ (Throttle.active Examples.afterTwoTasks ≤ 1)%nat.
Proof.
  split; [reflexivity|].
  destruct (active_never_exceeds_maxConcurrent Examples.limits Examples.twoTasks
              Examples.afterTwoTasks eq_refl) as (Hflight & _ & Hwhole & _).
  split; [exact Hflight|]. apply Hwhole. reflexivity.
Defined.

(** The claim C1 as stated fails for ceilings that do not count: with
    [maxConcurrent = 1.5] the test [active >= 1.5] lets a second task start
    while one is in flight, and with [NaN] it never refuses. *)
Lemma fractional_ceiling_is_exceeded :
  (Throttle.run Examples.fractionalSlots Throttle.createLimiter Examples.twoAtOnce
     = Some Examples.bothInFlight
   ∧ Throttle.active Examples.bothInFlight = 2%nat
   ∧ Js.leb (Z.of_nat (Throttle.active Examples.bothInFlight))
       (Throttle.maxConcurrent Examples.fractionalSlots) = false)
  ∧ (Throttle.run Examples.notANumber Throttle.createLimiter Examples.twoAtOnce
       = Some Examples.bothInFlight
     ∧ Js.leb (Z.of_nat (Throttle.active Examples.bothInFlight))
         (Throttle.maxConcurrent Examples.notANumber) = false).
Proof. split; split_and!; reflexivity. Qed.

Lemma rate_budgets_hold_witness :
  Throttle.run Examples.limits Throttle.createLimiter Examples.twoTasks
    = Some Examples.afterTwoTasks
  ∧ (Throttle.requestsIn 60000 (Throttle.admissions Examples.afterTwoTasks) ≤ 1)%nat
  ∧ (Throttle.requestsIn 60090 (Throttle.admissions Examples.afterTwoTasks) ≤ 1)%nat.
Proof.
  split; [reflexivity|].
  pose proof (rate_budgets_hold Examples.limits Examples.twoTasks
                Examples.afterTwoTasks eq_refl) as (_ & _ & Hcount & _).
  destruct (Hcount 1%nat eq_refl) as [_ Hwindows].
  split; apply Hwindows.
Defined.

(** The claim C2 as stated fails for ceilings that are not such numbers:
    with [maxRequestsPerMinute = 1.5] two requests are admitted at the same
    instant, and with [maxTokensPerMinute = NaN] no comparison with the
    ceiling holds. *)
Lemma fractional_rate_is_exceeded :
  (Throttle.run Examples.fractionalRate Throttle.createLimiter Examples.twoAtOnce
     = Some Examples.bothInFlight
   ∧ Throttle.requestsIn 0 (Throttle.admissions Examples.bothInFlight) = 2%nat
   ∧ Js.leb (Z.of_nat (Throttle.requestsIn 0 (Throttle.admissions Examples.bothInFlight)))
       (Throttle.maxRequestsPerMinute Examples.fractionalRate) = false)
  ∧ (Throttle.run Examples.notANumber Throttle.createLimiter Examples.twoAtOnce
       = Some Examples.bothInFlight
     ∧ Js.leb (Z.of_N (Throttle.tokensIn 0 (Throttle.admissions Examples.bothInFlight)))
         (Throttle.maxTokensPerMinute Examples.notANumber) = false).
Proof. split; split_and!; reflexivity. Qed.

Lemma refused_head_stays_in_front_witness :
  Throttle.run Examples.limits Throttle.createLimiter
    (take 6 Examples.twoTasks) = Some Examples.outOfRequests
  ∧ Throttle.queue (Throttle.runNext Examples.limits Examples.outOfRequests)
    = [{| Throttle.fn := 2%nat; Throttle.tokens := 80 |}]
  ∧ Throttle.timers (Throttle.runNext Examples.limits Examples.outOfRequests)
    = [290].
Proof.
  split; [reflexivity|].
  pose proof (refused_head_stays_in_front Examples.limits Examples.outOfRequests
                {| Throttle.fn := 2%nat; Throttle.tokens := 80 |} [] eq_refl)
    as (Hbudget & _ & _).
  destruct Hbudget as (Hq & Ht & _).
  - reflexivity.
  - left. reflexivity.
  - split; [exact Hq|exact Ht].
Defined.

(** The claim C3 as stated fails when the refusal is for concurrency: with
    the only slot taken and a second task queued, [runNext] leaves the queue
    as it is and schedules no retry. *)
Lemma saturated_limiter_schedules_no_retry :
  Throttle.run Examples.limits Throttle.createLimiter Examples.saturating
    = Some Examples.saturated
  ∧ Js.geb (Z.of_nat (Throttle.active Examples.saturated))
      (Throttle.maxConcurrent Examples.limits) = true
  ∧ Throttle.queue Examples.saturated
    = [{| Throttle.fn := 2%nat; Throttle.tokens := 500 |}]
  ∧ Throttle.timers (Throttle.runNext Examples.limits Examples.saturated) = []
  ∧ Throttle.timers (Throttle.runNext Examples.limits Examples.saturated)
    ≠ Throttle.timers Examples.saturated
        ++ [Throttle.clock Examples.saturated + Throttle.retryDelayMs].
Proof. split_and!; [reflexivity..|discriminate]. Qed.

Lemma omitted_estimate_costs_500_witness :
  Throttle.queue (Throttle.schedule 7%nat None Throttle.createLimiter)
    = [{| Throttle.fn := 7%nat; Throttle.tokens := 500 |}]
  ∧ Throttle.tokensTimestamps
      (Throttle.runNext Examples.limits
         (Throttle.schedule 7%nat None Throttle.createLimiter))
    = [(0, 500%N)].
Proof.
  destruct (omitted_estimate_costs_500 Examples.limits 7%nat) as [Hqueue Hhead].
  split; [apply Hqueue|].
  destruct (Hhead (Throttle.schedule 7%nat None Throttle.createLimiter) [])
    as [Hfits _].
  - reflexivity.
  - reflexivity.
  - reflexivity.
  - destruct Hfits as (_ & _ & Hlog); [reflexivity|]. exact Hlog.
Defined.

(** * Properties of the retry wrapper *)

Section RetryFacts.

Import Runner.

Context {T : Type}.
Variables (fn : nat → outcome T) (random : nat → Q) (retries : nat).

Lemma retriable_iff err :
  retriable err = true
  ↔ ∃ n, statusOf err = Some (VNumber n) ∧ (n = 429 ∨ 500 ≤ n).
Proof.
  unfold retriable. destruct (statusOf err) as [[n|]|]; split.
  - intros H. exists n. split; [done|]. apply orb_true_iff in H as [H|H]; lia.
  - intros (n' & [= <-] & H). apply orb_true_iff. lia.
  - done.
  - by intros (n' & ? & _).
  - done.
  - by intros (n' & ? & _).
Qed.

(** What a finished loop did, from any loop state. *)
Lemma withRetryLoop_sound fuel attempt delay calls waited r :
  withRetryLoop fuel fn random retries attempt delay calls waited = Some r →
  (calls < invocations r)%nat
  ∧ ended r = fn (invocations r - 1)%nat
  ∧ (∀ k, calls ≤ k → S k < invocations r →
          ∃ err, fn k = Thrown err ∧ retriable err = true)%nat
  ∧ (attempt + (invocations r - S calls) ≤ retries ∨ invocations r = S calls)%nat
  ∧ (∀ err, ended r = Thrown err →
            retriable err = false ∨ (retries < attempt + (invocations r - calls))%nat)
  ∧ waits r = waited ++ (waitAt random delay (length waited) <$> seq 0 (invocations r - S calls)).
Proof.
  revert attempt delay calls waited.
  induction fuel as [|fuel IH]; intros attempt delay calls waited Hrun; [done|].
  simpl in Hrun. destruct (fn calls) as [v|err] eqn:Hfn.
  - clear IH. injection Hrun as <-. simpl.
    rewrite Nat.sub_0_r, Nat.sub_diag, Hfn. simpl. rewrite app_nil_r.
    split_and!; try done; try lia.
  - destruct (negb (retriable err) || (retries <? S attempt)%nat) eqn:Hstop.
    + clear IH. injection Hrun as <-. simpl.
      rewrite Nat.sub_0_r, Nat.sub_diag, Hfn. simpl. rewrite app_nil_r.
      split_and!; try done; try lia.
      intros err' [= <-]. apply orb_true_iff in Hstop as [Hn|Hr].
      * left. by apply negb_true_iff.
      * right. apply Nat.ltb_lt in Hr. lia.
    + apply orb_false_iff in Hstop as [Hretr Hmore].
      apply negb_false_iff in Hretr. apply Nat.ltb_ge in Hmore.
      apply IH in Hrun as (Hlt & Hend & Hmid & Hbound & Hterm & Hwaits).
      split_and!; try done; try lia.
      * intros k Hk1 Hk2. destruct (decide (k = calls)) as [->|Hne].
        -- eauto.
        -- apply Hmid; lia.
      * intros err' Herr'. destruct (Hterm err' Herr'); [by left|right; lia].
      * rewrite Hwaits, <- (assoc_L (++)). f_equal.
        rewrite length_app; simpl.
        replace (invocations r - S calls)%nat with (S (invocations r - S (S calls))) by lia.
        simpl. f_equal.
        -- unfold waitAt; simpl. by rewrite Nat.add_0_r.
        -- rewrite <- fmap_S_seq, <- list_fmap_compose. apply list_fmap_ext.
           intros i k _. unfold waitAt; simpl.
           rewrite <- !Nat.iter_succ_r. simpl.
           replace (length waited + 1 + k)%nat with (length waited + S k)%nat by lia.
           done.
Qed.

(** The loop comes back once it has as many rounds as there are attempts
    left. *)
Lemma withRetryLoop_enough fuel attempt delay calls waited :
  (1 ≤ fuel)%nat → (S retries - attempt ≤ fuel)%nat →
  is_Some (withRetryLoop fuel fn random retries attempt delay calls waited).
Proof.
  revert attempt delay calls waited.
  induction fuel as [|fuel IH]; intros attempt delay calls waited H1 H2; [lia|].
  simpl. destruct (fn calls) as [v|err]; [done|].
  destruct (negb (retriable err) || (retries <? S attempt)%nat) eqn:Hstop; [done|].
  apply orb_false_iff in Hstop as [_ Hmore]. apply Nat.ltb_ge in Hmore.
  apply IH; lia.
Qed.

(** More rounds than needed change nothing. *)
Lemma withRetryLoop_more fuel fuel' attempt delay calls waited r :
  (fuel ≤ fuel')%nat →
  withRetryLoop fuel fn random retries attempt delay calls waited = Some r →
  withRetryLoop fuel' fn random retries attempt delay calls waited = Some r.
Proof.
  revert fuel' attempt delay calls waited.
  induction fuel as [|fuel IH]; intros fuel' attempt delay calls waited Hle Hrun; [done|].
  destruct fuel' as [|fuel']; [lia|]. simpl in *.
  destruct (fn calls) as [v|err]; [done|].
  destruct (negb (retriable err) || (retries <? S attempt)%nat); [done|].
  apply IH; [lia|done].
Qed.

(** C4.  A failure is retriable exactly when the status it carries is the
    number 429 or a number that is at least 500.  [withRetry] always comes
    back, whatever the fuel beyond [retries + 1]; it invokes the operation at
    least once and at most [retries + 1] times, every invocation but the last
    having failed with a retriable status; an operation whose failures are
    all non-retriable is invoked exactly once; and what comes back is what
    the last invocation returned or threw, the thrown value untouched, after
    a non-retriable failure or after invocation [retries + 1]. *)
Theorem withRetry_retries_only_transient :
  (∀ err, retriable err = true
          ↔ ∃ n, statusOf err = Some (VNumber n) ∧ (n = 429 ∨ 500 ≤ n))
  ∧ ∃ r, withRetry fn random retries = Some r
      ∧ (∀ fuel, (S retries ≤ fuel)%nat →
                 withRetryFuel fuel fn random retries = Some r)
      ∧ (1 ≤ invocations r ≤ S retries)%nat
      ∧ ended r = fn (invocations r - 1)%nat
      ∧ (∀ k, (S k < invocations r)%nat →
              ∃ err, fn k = Thrown err ∧ retriable err = true)
      ∧ ((∀ k err, fn k = Thrown err → retriable err = false) →
         invocations r = 1%nat)
      ∧ (∀ err, ended r = Thrown err →
                fn (invocations r - 1)%nat = Thrown err
                ∧ (retriable err = false ∨ invocations r = S retries)).
Proof.
  split; [apply retriable_iff|].
  destruct (withRetryLoop_enough (S retries) 0 initialDelayMs 0 []) as [r Hr]; [lia..|].
  exists r. split; [exact Hr|].
  pose proof (withRetryLoop_sound _ _ _ _ _ _ Hr)
    as (Hlt & Hend & Hmid & Hbound & Hterm & _).
  split_and!; try done; try lia.
  - intros fuel Hfuel. by apply (withRetryLoop_more (S retries)).
  - intros k Hk. apply Hmid; lia.
  - intros Hnever. destruct (decide (invocations r = 1%nat)) as [|Hne]; [done|].
    destruct (Hmid 0%nat) as (err & Hthrown & Hretr); [lia..|].
    rewrite (Hnever _ _ Hthrown) in Hretr. done.
  - intros err Herr. split; [congruence|].
    destruct (Hterm err Herr) as [|Hover]; [by left|right; lia].
Qed.

(** *** Backoff *)

Lemma nextDelay_iter k :
  Nat.iter k nextDelay initialDelayMs = Z.min 8000 (500 * 2 ^ Z.of_nat k).
Proof.
  induction k as [|k IH]; [done|].
  rewrite Nat.iter_succ, IH, Nat2Z.inj_succ, Z.pow_succ_r by lia.
  unfold nextDelay, maxDelayMs. lia.
Qed.


Lemma jitterOf_range (x : Q) :
  (0 <= x)%Q → (x < 1)%Q → 0 ≤ jitterOf x < 200.
Proof.
  intros H0 H1. unfold jitterOf, jitterSpanMs. split.
  - change 0 with (Qfloor 0). apply Qfloor_resp_le.
    change (0%Q) with (0 * inject_Z 200)%Q. by apply Qmult_le_compat_r.
  - rewrite Zlt_Qlt. eapply Qle_lt_trans; [apply Qfloor_le|].
    eapply Qlt_le_trans; [apply Qmult_lt_compat_r; [reflexivity|exact H1]|].
    unfold Qle; simpl; lia.
Qed.


End RetryFacts.

(** The wrapper on the operation that always answers 500, with two
    retries: three invocations, waits based on 500 and 1000 ms. *)

Lemma withRetry_retries_only_transient_witness :
  Runner.withRetry Examples.alwaysServerError Examples.halfway 2
    = Some Examples.threeAttempts
  ∧ (1 ≤ Runner.invocations Examples.threeAttempts ≤ 3)%nat
  ∧ Runner.ended Examples.threeAttempts = Examples.alwaysServerError 2%nat.
Proof.
  split; [reflexivity|].
  destruct (withRetry_retries_only_transient Examples.alwaysServerError
              Examples.halfway 2) as (_ & r & Hr & _ & Hcalls & Hlast & _).
  change (Runner.withRetry Examples.alwaysServerError Examples.halfway 2)
    with (Some Examples.threeAttempts) in Hr.
  injection Hr as <-. split; [exact Hcalls|exact Hlast].
Defined.


(** * Properties of the trace names *)

Section TraceFacts.

Import Runner.

Lemma append_nil (b : string) : "" +:+ b = b.
Proof. reflexivity. Qed.

Lemma append_cons (c : ascii) (a b : string) :
  String c a +:+ b = String c (a +:+ b).
Proof. reflexivity. Qed.

Lemma length_append (a b : string) :
  String.length (a +:+ b) = (String.length a + String.length b)%nat.
Proof.
  induction a as [|c a IH]; [done|].
  rewrite append_cons. simpl. by rewrite IH.
Qed.

Lemma append_assoc (a b c : string) : (a +:+ b) +:+ c = a +:+ b +:+ c.
Proof.
  induction a as [|x a IH]; [done|]. rewrite !append_cons. by rewrite IH.
Qed.

Lemma append_cancel_r (a b x : string) : a +:+ x = b +:+ x → a = b.
Proof.
  intros Heq.
  assert (String.length a = String.length b) as Hlen.
  { apply (f_equal String.length) in Heq. rewrite !length_append in Heq. lia. }
  revert b Heq Hlen. induction a as [|c a IH]; intros [|d b] Heq Hlen;
    simpl in Hlen; try done.
  rewrite !append_cons in Heq.
  injection Heq as -> Heq. f_equal. apply IH; [done|lia].
Qed.

Lemma sanitize_kept (s : string) : allChars keptChar s = true → sanitize s = s.
Proof.
  induction s as [|c s IH]; simpl; [done|].
  intros [Hc Hs]%andb_true_iff. rewrite Hc. f_equal. by apply IH.
Qed.

(** Where neither name followed by an underscore is a prefix of the other,
    the separator splits off the same model name on both sides. *)
Lemma separator_unambiguous (m1 m2 rest1 rest2 : string) :
  String.prefix (m1 +:+ "_") m2 = false →
  String.prefix (m2 +:+ "_") m1 = false →
  m1 +:+ "__" +:+ rest1 = m2 +:+ "__" +:+ rest2 →
  m1 = m2 ∧ rest1 = rest2.
Proof.
  revert m2. induction m1 as [|c m1 IH]; intros [|d m2] H1 H2 Heq;
    rewrite ?append_cons, ?append_nil in *.
  - injection Heq as ->. done.
  - injection Heq as <- _. simpl in H1.
    destruct (ascii_dec "_" "_"); [|done]. by destruct m2.
  - injection Heq as -> _. simpl in H2.
    destruct (ascii_dec "_" "_"); [|done]. by destruct m1.
  - injection Heq as -> Heq. simpl in H1, H2.
    destruct (ascii_dec d d); [|done].
    destruct (IH m2 H1 H2 Heq) as [-> ->]. done.
Qed.

(** C9, as the code has it.  Two units with the same failure flag get the
    same trace file name exactly when their sanitized model names and test
    ids, joined by the separator, are the same string.  So the names differ
    whenever the sanitized (model, test id) pairs differ and neither
    sanitized model name followed by an underscore is a prefix of the
    other; in particular for two tests of one model whose ids sanitize to
    different strings, whatever the model is called, and for different
    pairs of names that [sanitize] leaves as they are.  And a unit that has
    a non-empty error message or a score below 1 gets the name of the
    passing unit with [__FAIL] put before [.json], which is a different
    name. *)
Theorem trace_names_tell_units_apart :
  (∀ fail m1 t1 m2 t2,
     traceNameOf fail m1 t1 = traceNameOf fail m2 t2
     ↔ sanitize m1 +:+ "__" +:+ sanitize t1 = sanitize m2 +:+ "__" +:+ sanitize t2)
  ∧ (∀ fail m1 t1 m2 t2,
       String.prefix (sanitize m1 +:+ "_") (sanitize m2) = false →
       String.prefix (sanitize m2 +:+ "_") (sanitize m1) = false →
       (sanitize m1, sanitize t1) ≠ (sanitize m2, sanitize t2) →
       traceNameOf fail m1 t1 ≠ traceNameOf fail m2 t2)
  ∧ (∀ fail m t1 t2,
       sanitize t1 ≠ sanitize t2 → traceNameOf fail m t1 ≠ traceNameOf fail m t2)
  ∧ (∀ fail m1 t1 m2 t2,
       allChars keptChar m1 = true → allChars keptChar m2 = true →
       allChars keptChar t1 = true → allChars keptChar t2 = true →
       String.prefix (m1 +:+ "_") m2 = false →
       String.prefix (m2 +:+ "_") m1 = false →
       (m1, t1) ≠ (m2, t2) →
       traceNameOf fail m1 t1 ≠ traceNameOf fail m2 t2)
  ∧ (∀ r,
       truthy (error r) = true ∨ (score r < 1)%Qc →
       traceName r = sanitize (model r) +:+ "__" +:+ sanitize (testId r) +:+ "__FAIL.json"
       ∧ traceName r ≠ traceNameOf false (model r) (testId r)).
Proof.
  assert (∀ fail m1 t1 m2 t2,
            traceNameOf fail m1 t1 = traceNameOf fail m2 t2
            ↔ sanitize m1 +:+ "__" +:+ sanitize t1
              = sanitize m2 +:+ "__" +:+ sanitize t2) as Hsame.
  { intros fail m1 t1 m2 t2. unfold traceNameOf.
    assert (∀ a b x : string, a +:+ "__" +:+ b +:+ x = (a +:+ "__" +:+ b) +:+ x)
      as Hform.
    { intros a b x. by rewrite !append_assoc. }
    rewrite !Hform. split.
    - apply append_cancel_r.
    - by intros ->. }
  assert (∀ fail m1 t1 m2 t2,
            String.prefix (sanitize m1 +:+ "_") (sanitize m2) = false →
            String.prefix (sanitize m2 +:+ "_") (sanitize m1) = false →
            (sanitize m1, sanitize t1) ≠ (sanitize m2, sanitize t2) →
            traceNameOf fail m1 t1 ≠ traceNameOf fail m2 t2) as Hapart.
  { intros fail m1 t1 m2 t2 H1 H2 Hne Heq. apply Hne.
    apply Hsame in Heq.
    by destruct (separator_unambiguous _ _ _ _ H1 H2 Heq) as [-> ->]. }
  assert (∀ a : string, String.prefix (a +:+ "_") a = false) as Hself.
  { intros a. induction a as [|c a IH]; [done|].
    rewrite append_cons. simpl. by destruct (ascii_dec c c). }
  split_and!; [exact Hsame|exact Hapart| | |].
  - intros fail m t1 t2 Hne. apply Hapart; [apply Hself..|]. congruence.
  - intros fail m1 t1 m2 t2 Hm1 Hm2 Ht1 Ht2 H1 H2 Hne.
    apply Hapart; rewrite ?(sanitize_kept m1), ?(sanitize_kept m2),
      ?(sanitize_kept t1), ?(sanitize_kept t2); done.
  - intros r Hfail.
    assert (isFail r = true) as Hf.
    { unfold isFail. apply orb_true_iff.
      destruct Hfail as [?|?]; [by left|right; by apply bool_decide_eq_true]. }
    unfold traceName, traceNameOf. rewrite Hf. simpl. split; [done|].
    intros Heq. apply (f_equal String.length) in Heq.
    rewrite !length_append in Heq. simpl in Heq. lia.
Qed.

(** The claim C9 as stated fails: results that pass alike, for different
    (model, test id) pairs, are written to the same file, once because
    [sanitize] sends ["/"] and ["_"] to the same character and once because
    the separator can also occur inside the names. *)
Lemma trace_names_collide :
  ((model (Examples.passing "openai/gpt-4o" "greeting"),
    testId (Examples.passing "openai/gpt-4o" "greeting"))
   ≠ (model (Examples.passing "openai_gpt-4o" "greeting"),
      testId (Examples.passing "openai_gpt-4o" "greeting"))
   ∧ isFail (Examples.passing "openai/gpt-4o" "greeting")
     = isFail (Examples.passing "openai_gpt-4o" "greeting")
   ∧ traceName (Examples.passing "openai/gpt-4o" "greeting")
     = traceName (Examples.passing "openai_gpt-4o" "greeting"))
  ∧ ((model (Examples.passing "a" "b__c"), testId (Examples.passing "a" "b__c"))
     ≠ (model (Examples.passing "a__b" "c"), testId (Examples.passing "a__b" "c"))
     ∧ isFail (Examples.passing "a" "b__c") = isFail (Examples.passing "a__b" "c")
     ∧ traceName (Examples.passing "a" "b__c")
       = traceName (Examples.passing "a__b" "c")).
Proof. split; (split; [discriminate|split; reflexivity]). Qed.

End TraceFacts.

Lemma trace_names_tell_units_apart_witness :
  Runner.traceNameOf false "openai/gpt-4o" "greeting_1"
    ≠ Runner.traceNameOf false "openai/gpt-4o" "greeting_2"
  ∧ Runner.traceNameOf false "openai/gpt-4o" "greeting"
    ≠ Runner.traceNameOf false "openai/gpt-4o-mini" "greeting"
  ∧ Runner.traceName (Examples.scored "gpt-4o" 0%Qc) = "gpt-4o__t__FAIL.json".
Proof.
  destruct trace_names_tell_units_apart as (_ & Hapart & Htests & _ & Hfail).
  split_and!.
  - apply Htests. discriminate.
  - apply Hapart; [reflexivity|reflexivity|discriminate].
  - destruct (Hfail (Examples.scored "gpt-4o" 0%Qc)) as [Hname _].
    + right. reflexivity.
    + exact Hname.
Defined.

(** * Properties of the aggregator *)

Section SummaryFacts.

Import Runner.

Implicit Types (acc : gmap string ModelTotals) (r : TestResult).

Lemma addResult_lookup acc r m :
  inherited m = false →
  addResult acc r !! m = if decide (model r = m) then bump r (acc !! m) else acc !! m.
Proof.
  intros Hm. unfold addResult.
  destruct (inherited (model r)) eqn:Hin.
  - case_decide; [congruence|done].
  - case_decide as Heq.
    + subst m. rewrite lookup_alter_eq. unfold bump.
      destruct (acc !! model r) as [v|] eqn:Hv; simpl.
      * by rewrite Hv.
      * by rewrite lookup_insert_eq.
    + rewrite lookup_alter_ne by done.
      destruct (acc !! model r); [done|]. by rewrite lookup_insert_ne.
Qed.

Lemma addResult_inherited acc r m :
  inherited m = true → addResult acc r !! m = acc !! m.
Proof.
  intros Hm. unfold addResult.
  destruct (inherited (model r)) eqn:Hin; [done|].
  assert (model r ≠ m) by congruence.
  rewrite lookup_alter_ne by done.
  destruct (acc !! model r); [done|]. by rewrite lookup_insert_ne.
Qed.

Lemma totals_lookup results acc m :
  inherited m = false →
  foldl addResult acc results !! m
  = foldl (λ v r, bump r v) (acc !! m) (List.filter (λ r, bool_decide (model r = m)) results).
Proof.
  intros Hm. revert acc. induction results as [|r results IH]; intros acc; simpl; [done|].
  rewrite IH, addResult_lookup by done.
  case_bool_decide; case_decide; done.
Qed.

Lemma totals_inherited results acc m :
  inherited m = true → foldl addResult acc results !! m = acc !! m.
Proof.
  intros Hm. revert acc. induction results as [|r results IH]; intros acc; simpl; [done|].
  by rewrite IH, addResult_inherited.
Qed.

Lemma scoreSum_acc results (q : Qc) :
  foldl (λ a r, (a + score r)%Qc) q results = (q + scoreSum results)%Qc.
Proof.
  unfold scoreSum. revert q. induction results as [|r results IH]; intros q; simpl.
  - ring.
  - rewrite (IH (q + score r)%Qc), (IH (0 + score r)%Qc). ring.
Qed.

Lemma bump_all results (v : ModelTotals) :
  foldl (λ v r, bump r v) (Some v) results
  = Some {| tests := tests v + length results;
            sum := (sum v + scoreSum results)%Qc |}.
Proof.
  revert v. induction results as [|r results IH]; intros [n q]; simpl.
  - f_equal. f_equal; [lia|]. unfold scoreSum; simpl. ring.
  - unfold bump at 2. simpl. rewrite IH. simpl. f_equal. f_equal; [lia|].
    unfold scoreSum at 2. simpl. rewrite scoreSum_acc. ring.
Qed.

(** For every model name that [Object.prototype] does not define,
    [summarize] reports the number of the model's results and the mean of
    their scores, and reports nothing for a model without results; the
    overall figure is the mean of all scores, 0 for the empty list. *)
Lemma summarize_means results :
  (∀ m, inherited m = false →
     byModel (summarize results) !! m
     = match ofModel m results with
       | [] => None
       | mine =>
           Some {| testCount := length mine;
                   avgScore := (scoreSum mine / QcOfNat (length mine))%Qc |}
       end)
  ∧ overallAvg (summarize results)
    = match results with
      | [] => 0%Qc
      | _ => (scoreSum results / QcOfNat (length results))%Qc
      end.
Proof.
  split.
  - intros m Hm. unfold summarize; simpl.
    rewrite lookup_fmap, totals_lookup, lookup_empty by done.
    fold (ofModel m results). destruct (ofModel m results) as [|r mine]; [done|].
    simpl. unfold bump at 2. simpl. rewrite bump_all. simpl.
    assert (scoreSum (r :: mine) = (0 + score r + scoreSum mine)%Qc) as ->; [|done].
    unfold scoreSum at 1. simpl. by rewrite scoreSum_acc.
  - unfold summarize; simpl. by destruct results.
Qed.

(** The aggregator example of the design document, and the same figures on
    a second call. *)
Lemma summarize_three_scores :
  byModel (summarize Examples.threeScores) !! "A"
    = Some {| testCount := 2; avgScore := Q2Qc (1 # 2) |}
  ∧ byModel (summarize Examples.threeScores) !! "B"
    = Some {| testCount := 1; avgScore := Q2Qc (1 # 2) |}
  ∧ overallAvg (summarize Examples.threeScores) = Q2Qc (1 # 2)
  ∧ summarize Examples.threeScores = summarize Examples.threeScores.
Proof.
  destruct (summarize_means Examples.threeScores) as [Hby Hall].
  split_and!; [| | |done].
  - rewrite Hby by done. simpl. do 2 f_equal; by apply Qc_is_canon.
  - rewrite Hby by done. simpl. do 2 f_equal; by apply Qc_is_canon.
  - rewrite Hall. simpl. by apply Qc_is_canon.
Qed.

(** No entry is ever reported under a name that [Object.prototype]
    defines. *)
Lemma summarize_inherited results m :
  inherited m = true → byModel (summarize results) !! m = None.
Proof.
  intros Hm. unfold summarize; simpl.
  by rewrite lookup_fmap, totals_inherited, lookup_empty.
Qed.

(** C8 fails on the code for model names that [Object.prototype] defines.
    For the single result of a model called [constructor], with score 1,
    [summarize] returns an empty [byModel], so the model has no [avgScore]
    at all, although the overall mean is 1; and beside an ordinary model, a
    model called [toString] is left out in the same way. *)
Theorem summarize_loses_inherited_model_names :
  (ofModel "constructor" Examples.shadowed = Examples.shadowed
   ∧ byModel (summarize Examples.shadowed) = ∅
   ∧ overallAvg (summarize Examples.shadowed) = 1%Qc)
  ∧ (byModel (summarize Examples.partlyShadowed) !! "A"
       = Some {| testCount := 1; avgScore := 1%Qc |}
     ∧ byModel (summarize Examples.partlyShadowed) !! "toString" = None).
Proof.
  split; split_and!.
  - done.
  - apply map_eq. intros m. rewrite lookup_empty.
    unfold summarize; simpl. rewrite lookup_fmap.
    unfold addResult; simpl. done.
  - destruct (summarize_means Examples.shadowed) as [_ ->]. simpl.
    by apply Qc_is_canon.
  - destruct (summarize_means Examples.partlyShadowed) as [-> _]; [done|].
    simpl. do 2 f_equal; by apply Qc_is_canon.
  - by apply summarize_inherited.
Qed.

End SummaryFacts.

(** * Properties of a run *)

Section RunFacts.

Import Runner.

Variables (opts : RunOptions) (env : Env).

Implicit Types (s : RunState) (u : WorkItem).

(** The scheduled function settles, one way or the other. *)
Lemma unitBody_settles u : ∃ settled, unitBody env (retries opts) u = Some settled.
Proof.
  unfold unitBody.
  destruct (withRetryLoop_enough (complete env u) (random env u) (retries opts)
              (S (retries opts)) 0 initialDelayMs 0 []) as [r Hr]; [lia..|].
  unfold withRetry, withRetryFuel. rewrite Hr.
  destruct (ended r) as [[text payload]|err]; [|by eexists].
  destruct (evaluateTest env u text); [|by eexists].
  destruct (writeTrace env u _); by eexists.
Qed.

(** What it returns carries the unit's model and test id. *)
Lemma unitBody_result u res :
  unitBody env (retries opts) u = Some (Returned res) →
  model res = name (unitModel u) ∧ testId res = id (unitTest u).
Proof.
  unfold unitBody, catchBranch. intros Hbody.
  repeat case_match; by simplify_eq.
Qed.

(** It throws only what [writeTrace] throws in the [catch] branch. *)
Lemma unitBody_returns u :
  failuresWritable env →
  ∃ res, unitBody env (retries opts) u = Some (Returned res).
Proof.
  intros Hwritable. destruct (unitBody_settles u) as [[res|err] Hbody]; [by exists res|].
  exfalso. unfold unitBody, catchBranch in Hbody.
  repeat case_match; simplify_eq; by rewrite Hwritable in *.
Qed.

Lemma runNext_keeps_entries (l : Throttle.state WorkItem) :
  Throttle.queue (Throttle.runNext (limiterOptions opts) l)
    ++ Throttle.running (Throttle.runNext (limiterOptions opts) l)
  ≡ₚ Throttle.queue l ++ Throttle.running l.
Proof.
  destruct (runNext_cases (limiterOptions opts) l) as [ |item rest _ Hq _|item rest _ Hq _];
    simpl; rewrite ?Hq; [done..|].
  rewrite (assoc_L (++)). symmetry. apply Permutation_cons_append.
Qed.

(** The state after the scheduling loops. *)
Lemma scheduled_entries (us : list WorkItem) (l : Throttle.state WorkItem) :
  let l' := foldl (λ st w, Throttle.schedule w
                     (Some (estimateTokens (prompt (unitTest w)))) st) l us in
  Throttle.fn <$> Throttle.queue l' = (Throttle.fn <$> Throttle.queue l) ++ us
  ∧ Throttle.running l' = Throttle.running l.
Proof.
  revert l. induction us as [|u us IH]; intros l; simpl.
  - by rewrite app_nil_r.
  - destruct (IH (Throttle.schedule u (Some (estimateTokens (prompt (unitTest u)))) l))
      as [-> ->]. simpl. rewrite fmap_app, <- (assoc_L (++)). done.
Qed.

Lemma runBenchmark_runOk : runOk opts env (runBenchmark opts).
Proof.
  destruct (scheduled_entries (workItems opts) Throttle.createLimiter) as [Hq Hr].
  constructor; simpl; try done.
  exists []. rewrite Hq, Hr. simpl. rewrite app_nil_r. split; [done|constructor].
Qed.

(** A unit that leaves flight joins the settled ones. *)
Lemma settled_moves {A} (x : A) (flight settled others : list A) :
  flight ++ (settled ++ [x]) ++ others ≡ₚ (x :: flight) ++ settled ++ others.
Proof.
  rewrite <- (assoc_L (++) settled [x] others). simpl.
  rewrite !(assoc_L (++) flight settled). symmetry. apply Permutation_middle.
Qed.

Lemma rejectWith_returned err f out :
  rejectWith err f = Some (Returned out) → f = Some (Returned out).
Proof. by destruct f. Qed.

Lemma rejectWith_thrown err f e :
  rejectWith err f = Some (Thrown e) → (f = None ∧ e = err) ∨ f = Some (Thrown e).
Proof. destruct f; simpl; intros; simplify_eq; eauto. Qed.

Lemma runStep_runOk s (e : runEvent) s' :
  runOk opts env s → runStep opts env s e = Some s' → runOk opts env s'.
Proof.
  intros [(settled & Hperm & Hres) Hlost Hcount Hpend Hret Hthr] Hstep.
  assert (∀ l', Throttle.queue l' ++ Throttle.running l'
                  ≡ₚ Throttle.queue (limiter s) ++ Throttle.running (limiter s) →
                runOk opts env (withLimiter l' s)) as Hkeep.
  { intros l' Hl'.
    assert (Throttle.queue (limiter s) = [] → Throttle.running (limiter s) = [] →
            Throttle.queue l' = [] ∧ Throttle.running l' = []) as Hidle.
    { intros Hq Hr. rewrite Hq, Hr in Hl'. apply Permutation_nil_r in Hl'.
      by apply app_eq_nil in Hl'. }
    constructor; simpl; try done.
    - exists settled. split; [|done].
      rewrite (assoc_L (++)), <- fmap_app, Hl', fmap_app, <- (assoc_L (++)). done.
    - intros out Hout.
      destruct (Hret out Hout) as (? & ? & ? & ? & Hq & Hr & ?).
      destruct (Hidle Hq Hr). done.
    - intros err Herr.
      destruct (Hthr err Herr) as [?|[?|(out & ? & Hq & Hr & ?)]];
        [by left|by right; left|].
      right; right. exists out. destruct (Hidle Hq Hr). done. }
  destruct e as [[f est| |i|i r|d]|]; simpl in Hstep.
  - done.
  - destruct (Throttle.immediates (limiter s)) as [|n] eqn:Hn; [done|].
    simpl in Hstep. simplify_eq. apply Hkeep. by rewrite runNext_keeps_entries.
  - destruct (Throttle.timers (limiter s) !! i) as [due|] eqn:Hd; [|done].
    simpl in Hstep. destruct (due <=? Throttle.clock (limiter s)); [|done].
    simpl in Hstep. simplify_eq. apply Hkeep. by rewrite runNext_keeps_entries.
  - destruct (Throttle.running (limiter s) !! i) as [item|] eqn:Hi; [|done].
    simpl in Hstep.
    assert (Throttle.running (limiter s) ≠ []) as Hflight.
    { intros Hnil. by rewrite Hnil in Hi. }
    pose proof (delete_Permutation _ _ _ Hi) as Hdel.
    apply (fmap_Permutation Throttle.fn) in Hdel. rewrite fmap_cons in Hdel.
    destruct (unitBody env (retries opts) (Throttle.fn item)) as [[res|err]|] eqn:Hbody;
      [| |done]; simpl in Hstep; destruct r; simplify_eq.
    + (* the task returned: its [then] callback runs *)
      constructor; simpl.
      * exists (settled ++ [Throttle.fn item]). split.
        -- rewrite <- Hperm, Hdel. f_equiv. apply settled_moves.
        -- apply Forall2_app; [done|]. by constructor.
      * done.
      * rewrite length_app. simpl. lia.
      * destruct (onProgress env _ _ _); [by destruct (finished s)|done].
      * intros out Hout.
        assert (finished s = Some (Returned out)) as Hf.
        { destruct (onProgress env _ _ _); [by apply rejectWith_returned in Hout|done]. }
        destruct (Hret out Hf) as (_ & _ & _ & _ & _ & Hr & _). done.
      * intros e He.
        destruct (onProgress env (S (completed s)) (total opts) res) as [thrown|] eqn:Hp.
        -- apply rejectWith_thrown in He as [[_ ->]|Hf]; [right; left; eauto|].
           destruct (Hthr e Hf) as [?|[?|(out & _ & _ & Hr & _)]];
             [by left|by right; left|done].
        -- destruct (Hthr e He) as [?|[?|(out & _ & _ & Hr & _)]];
             [by left|by right; left|done].
    + (* the task threw: its promise rejects *)
      constructor; simpl.
      * exists settled. split; [|done].
        rewrite <- Hperm, Hdel. f_equiv.
        cbn [app]. rewrite !(assoc_L (++)). symmetry. apply Permutation_cons_append.
      * apply Forall_app. split; [done|]. repeat constructor. eauto.
      * done.
      * by destruct (finished s).
      * intros out Hout. apply rejectWith_returned in Hout.
        destruct (Hret out Hout) as (_ & _ & _ & _ & _ & Hr & _). done.
      * intros e He. apply rejectWith_thrown in He as [[_ ->]|Hf].
        -- left. exists (Throttle.fn item). split; [|done].
           apply elem_of_app. right. by apply list_elem_of_singleton.
        -- destruct (Hthr e Hf) as [(u & Hu & ?)|[?|(out & _ & _ & Hr & _)]];
             [|by right; left|done].
           left. exists u. split; [|done]. apply elem_of_app. by left.
  - simplify_eq. by apply Hkeep.
  - destruct (finished s) eqn:Hf; [done|].
    destruct (noneOutstanding s) eqn:Hnone; [|done]. simplify_eq.
    unfold noneOutstanding in Hnone.
    destruct (Throttle.queue (limiter s)) eqn:Hq; [|done].
    destruct (Throttle.running (limiter s)) eqn:Hr; [|done].
    specialize (Hpend eq_refl).
    constructor; simpl; try done.
    + exists settled. rewrite Hq, Hr. done.
    + intros out Hout. unfold finalize in Hout.
      destruct (writeReport env _) eqn:Hw; simplify_eq. done.
    + intros err Herr. unfold finalize in Herr.
      destruct (writeReport env _) eqn:Hw; simplify_eq.
      right; right. eauto.
Qed.

Lemma runEvents_runOk (evs : list runEvent) s s' :
  runOk opts env s → runEvents opts env s evs = Some s' → runOk opts env s'.
Proof.
  revert s. induction evs as [|e evs IH]; intros s Hok Hrun; simpl in Hrun.
  - by simplify_eq.
  - destruct (runStep opts env s e) as [s1|] eqn:Hs; [|done].
    eauto using runStep_runOk.
Qed.

Lemma pairs_length :
  length (pairs opts) = (length (models opts) * length (suite opts))%nat.
Proof.
  unfold pairs. induction (models opts) as [|m ms IH]; simpl; [done|].
  by rewrite length_app, List.length_map, IH.
Qed.

Lemma workItems_length : length (workItems opts) = total opts.
Proof. unfold workItems, total. by rewrite length_imap, pairs_length. Qed.

Lemma workItems_keys :
  (λ u, (name (unitModel u), id (unitTest u))) <$> workItems opts
  = (λ p, (name p.1, id p.2)) <$> pairs opts.
Proof.
  unfold workItems. rewrite fmap_imap.
  exact (imap_const (λ p : ModelSpec * TestCase, (name p.1, id p.2)) (pairs opts)).
Qed.

Lemma workItems_indices (us : list (ModelSpec * TestCase)) (k : nat) :
  index <$> imap (λ i p, {| index := k + i; unitModel := p.1; unitTest := p.2 |}) us
  = seq k (length us).
Proof.
  revert k. induction us as [|p us IH]; intros k; simpl; [done|].
  rewrite Nat.add_0_r. f_equal. rewrite <- (IH (S k)). f_equal.
  apply imap_ext. intros i x _. simpl. f_equal. lia.
Qed.

(** The units of a run are pairwise different: each has its own index. *)
Lemma workItems_NoDup : NoDup (workItems opts).
Proof.
  apply (NoDup_fmap_1 index).
  change (index <$> workItems opts)
    with (index <$> imap (λ i p, {| index := 0 + i; unitModel := p.1; unitTest := p.2 |})
                      (pairs opts)).
  rewrite workItems_indices. apply NoDup_seq.
Qed.

End RunFacts.

(** C6 fails on the code when a failure record cannot be written.  The
    test with the 300-character id gives a trace file name that the file
    system refuses: [writeTrace] throws in the [try] branch, the [catch]
    branch builds the failure record, and there [writeTrace] throws again,
    with nothing to catch it.  The promise of the unit rejects and
    [runBenchmark] with it, at once, while the other unit is still queued;
    and when both units have settled the results hold one entry for the
    two units. *)
Theorem unwritable_trace_aborts_the_run :
  Runner.unitBody Examples.strictEnv (Runner.retries Examples.longFirst)
    (Examples.longUnit 0) = Some (Runner.Thrown Examples.nameTooLong)
  ∧ (∃ s, Runner.runEvents Examples.longFirst Examples.strictEnv
            (Runner.runBenchmark Examples.longFirst)
            (take 3 (Examples.oneByOne Throttle.Rejected Throttle.Fulfilled)) = Some s
          ∧ Runner.finished s = Some (Runner.Thrown Examples.nameTooLong)
          ∧ length (Throttle.queue (Runner.limiter s)) = 1%nat
          ∧ Runner.results s = [])
  ∧ Runner.runEvents Examples.longFirst Examples.strictEnv
      (Runner.runBenchmark Examples.longFirst)
      (Examples.oneByOne Throttle.Rejected Throttle.Fulfilled)
    = Some Examples.afterLongFirst
  ∧ Runner.noneOutstanding Examples.afterLongFirst = true
  ∧ length (Runner.results Examples.afterLongFirst) = 1%nat
  ∧ Runner.total Examples.longFirst = 2%nat
  ∧ Runner.finished Examples.afterLongFirst
    = Some (Runner.Thrown Examples.nameTooLong).
Proof.
  split_and!; [vm_compute; reflexivity| |vm_compute; reflexivity..].
  eexists. split; [vm_compute; reflexivity|]. split_and!; reflexivity.
Qed.

(** C7 fails on the code in the same way.  The completion call of the unit
    on the long test fails with status 500 on each of its three attempts;
    the [catch] branch builds the record with score 0, but it cannot be
    written, so the scheduled function throws: no result is recorded for
    the unit, and what [writeTrace] threw leaves [runBenchmark]. *)
Theorem unwritable_failure_record_loses_the_unit :
  Runner.withRetry (Runner.complete Examples.strictEnv (Examples.longUnit 1))
    (Runner.random Examples.strictEnv (Examples.longUnit 1))
    (Runner.retries Examples.longLast) = Some Examples.threeAttempts
  ∧ Runner.ended Examples.threeAttempts = Runner.Thrown Examples.serverError
  ∧ Runner.unitBody Examples.strictEnv (Runner.retries Examples.longLast)
      (Examples.longUnit 1) = Some (Runner.Thrown Examples.nameTooLong)
  ∧ Runner.runEvents Examples.longLast Examples.strictEnv
      (Runner.runBenchmark Examples.longLast)
      (Examples.oneByOne Throttle.Fulfilled Throttle.Rejected)
    = Some Examples.afterLongLast
  ∧ Runner.noneOutstanding Examples.afterLongLast = true
  ∧ Runner.testId <$> Runner.results Examples.afterLongLast = ["greeting"]
  ∧ Runner.lost Examples.afterLongLast = [Examples.longUnit 1]
  ∧ Runner.finished Examples.afterLongLast
    = Some (Runner.Thrown Examples.nameTooLong).
Proof. split_and!; vm_compute; reflexivity. Qed.

(** * Further properties of the limiter *)

Section LimiterOrder.

Import Throttle Limits.

Context {Task : Type}.
Variable o : LimiterOptions.

Implicit Types (s : state Task) (evs : list (event Task)).

Lemma run_app_some evs1 evs2 s s1 :
  run o s evs1 = Some s1 → run o s (evs1 ++ evs2) = run o s1 evs2.
Proof.
  revert s. induction evs1 as [|e evs1 IH]; intros s Hrun; simpl in *.
  - by simplify_eq.
  - destruct (step o s e); [by apply IH|done].
Qed.

(** *** No lost wake-up *)

Lemma runNext_wakeOk s n :
  (length (queue s) ≤ S n + active s)%nat
  ∨ Js.geb (Z.of_nat (S n + active s)) (maxConcurrent o) = true →
  pendingCalls s = n →
  wakeOk o (runNext o s).
Proof.
  intros Hw Hp. unfold wakeOk, pendingCalls in *.
  destruct (runNext_cases o s) as [[Hfull|Hempty]|item rest Hact Hq _|item rest Hact Hq _];
    simpl.
  - right. eapply geb_mono; [|exact Hfull]; lia.
  - left. rewrite Hempty. simpl. lia.
  - rewrite Hq in Hw. rewrite length_app. simpl in *.
    destruct Hw as [Hw|Hw]; [left; lia|right].
    eapply geb_mono; [|exact Hw]; lia.
  - rewrite Hq in Hw. simpl in *.
    destruct Hw as [Hw|Hw]; [left; lia|right].
    eapply geb_mono; [|exact Hw]; lia.
Qed.

Lemma step_wakeOk s (e : event Task) s' :
  wakeOk o s → step o s e = Some s' → wakeOk o s'.
Proof.
  intros Hw Hs. unfold wakeOk, pendingCalls in Hw.
  destruct e as [f est| |i|i r|d]; simpl in Hs.
  - simplify_eq. unfold wakeOk, pendingCalls; simpl.
    rewrite length_app. simpl.
    destruct Hw as [Hw|Hw]; [left; lia|right].
    eapply geb_mono; [|exact Hw]; lia.
  - destruct (immediates s) as [|n] eqn:E; [done|]. simplify_eq.
    apply (runNext_wakeOk _ (n + length (timers s))); simpl.
    + destruct Hw as [Hw|Hw]; [left; lia|right].
      eapply geb_mono; [|exact Hw]; lia.
    + unfold pendingCalls; simpl. done.
  - destruct (timers s !! i) as [due|] eqn:E; [|done].
    destruct (due <=? clock s); [|done]. simplify_eq.
    pose proof (lookup_lt_Some _ _ _ E).
    apply (runNext_wakeOk _ (immediates s + (length (timers s) - 1))); simpl.
    + destruct Hw as [Hw|Hw]; [left; lia|right].
      eapply geb_mono; [|exact Hw]; lia.
    + unfold pendingCalls; simpl. rewrite length_delete by eauto. done.
  - destruct (running s !! i) as [item|] eqn:E; [|done]. simplify_eq.
    unfold wakeOk, pendingCalls; simpl.
    destruct Hw as [Hw|Hw]; [left; lia|right].
    eapply geb_mono; [|exact Hw]; lia.
  - simplify_eq. unfold wakeOk, pendingCalls; simpl. done.
Qed.

Lemma createLimiter_wakeOk : wakeOk o (createLimiter (Task:=Task)).
Proof. left. simpl. lia. Qed.

(** X1.  In every state the limiter can reach, the pending [runNext]
    callbacks and the tasks in flight together are as many as the queued
    entries, or so many that the test [active >= maxConcurrent] holds of
    their number; for a ceiling of [c] slots they are at least the smaller
    of the queue length and [c].  So whenever an entry waits and the
    ceiling lets a first task start, something is in flight or a callback
    is pending. *)
Theorem no_lost_wakeup evs s :
  run o createLimiter evs = Some s →
  ((length (queue s) ≤ pendingCalls s + active s)%nat
   ∨ Js.geb (Z.of_nat (pendingCalls s + active s)) (maxConcurrent o) = true)
  ∧ (∀ c : nat, maxConcurrent o = Js.int (Z.of_nat c) →
       (length (queue s) `min` c ≤ pendingCalls s + active s)%nat)
  ∧ (queue s ≠ [] → Js.geb 0 (maxConcurrent o) = false →
     (1 ≤ immediates s + length (timers s) + length (running s))%nat).
Proof.
  intros Hrun.
  assert (wakeOk o s) as Hw.
  { eapply (run_preserves o (wakeOk o));
      [apply step_wakeOk|apply createLimiter_wakeOk|exact Hrun]. }
  assert (concurrencyOk o s) as [Hact _].
  { eapply (run_preserves o (concurrencyOk o));
      [apply step_concurrencyOk|apply createLimiter_concurrencyOk|exact Hrun]. }
  split_and!; [exact Hw| |].
  - intros c Hc. destruct Hw as [Hw|Hw]; [lia|].
    rewrite Hc, geb_int in Hw. apply bool_decide_eq_true in Hw. lia.
  - intros Hq Hfirst. unfold wakeOk, pendingCalls in Hw.
    destruct Hw as [Hw|Hw].
    + destruct (queue s) as [|x q]; [done|]. simpl in Hw. lia.
    + pose proof (geb_lt _ _ _ Hfirst Hw). lia.
Qed.

(** *** Queue order *)




(** *** The logs are in time order *)

Lemma pruneRequests_split now (l : list Z) :
  ∃ old, l = old ++ pruneRequests now l ∧ Forall (λ t, now - t > windowMs) old.
Proof.
  induction l as [|t l (old & Heq & Hold)]; simpl.
  - by exists [].
  - destruct (Z.gtb_spec (now - t) windowMs) as [Hgt|Hle].
    + exists (t :: old). split; [simpl; congruence|]. constructor; [lia|done].
    + by exists [].
Qed.

Lemma sorted_snoc (l : list Z) (t : Z) :
  StronglySorted Z.le l → Forall (λ x, x ≤ t) l → StronglySorted Z.le (l ++ [t]).
Proof.
  intros Hs Hle. apply StronglySorted_app_2; [|done|repeat constructor].
  intros x1 x2 Hx1 ->%list_elem_of_singleton.
  by apply (proj1 (Forall_forall _ _) Hle).
Qed.

Lemma runNext_clockOk s : clockOk s → clockOk (runNext o s).
Proof.
  intros [Hsync Hsorted Hpast Htimers].
  destruct (pruneRequests_split (clock s) (requestsTimestamps s)) as (old & Hold & _).
  assert (StronglySorted Z.le (pruneRequests (clock s) (requestsTimestamps s))) as Hs'.
  { rewrite Hold in Hsorted. by apply StronglySorted_app_1_r in Hsorted. }
  assert (Forall (λ t, t ≤ clock s) (pruneRequests (clock s) (requestsTimestamps s))) as Hp'.
  { rewrite Hold in Hpast. by apply Forall_app in Hpast as [_ ?]. }
  destruct (runNext_cases o s) as [_|item rest _ _ _|item rest _ _ _].
  - done.
  - constructor; simpl; [|done|done|].
    + by rewrite Hsync, pruneRequests_fst.
    + apply Forall_app. split; [|repeat constructor; unfold retryDelayMs; lia].
      eapply Forall_impl; [exact Htimers|]. simpl. lia.
  - constructor; simpl; [| | |done].
    + by rewrite Hsync, pruneRequests_fst, fmap_app.
    + by apply sorted_snoc.
    + apply Forall_app. split; [done|]. repeat constructor. lia.
Qed.

Lemma step_clockOk s (e : event Task) s' :
  clockOk s → step o s e = Some s' → clockOk s'.
Proof.
  intros HI Hs. destruct e as [f est| |i|i r|d]; simpl in Hs.
  - simplify_eq. by destruct HI.
  - destruct (immediates s) eqn:E; [done|]. simplify_eq.
    apply runNext_clockOk. by destruct HI.
  - destruct (timers s !! i) as [due|] eqn:E; [|done].
    destruct (due <=? clock s); [|done]. simplify_eq.
    apply runNext_clockOk. destruct HI. constructor; simpl; try done.
    by apply Forall_delete.
  - destruct (running s !! i) as [item|] eqn:E; [|done]. simplify_eq.
    by destruct HI.
  - simplify_eq. destruct HI as [? ? Hpast Htimers]. constructor; simpl; try done.
    + eapply Forall_impl; [exact Hpast|]. simpl. lia.
    + eapply Forall_impl; [exact Htimers|]. simpl. lia.
Qed.

Lemma createLimiter_clockOk : clockOk (createLimiter (Task:=Task)).
Proof. constructor; simpl; by constructor. Qed.

Lemma filter_all {A} (P : A → bool) (l : list A) :
  Forall (λ x, P x = true) l → List.filter P l = l.
Proof.
  induction 1 as [|x l Hx _ IH]; simpl; [done|]. by rewrite Hx, IH.
Qed.

Lemma pruneTokens_exact now (l : list (Z * N)) :
  StronglySorted Z.le l.*1 →
  pruneTokens now l = List.filter (λ e, fresh now e.1) l.
Proof.
  induction l as [|e l IH]; simpl; [done|].
  intros Hs. apply StronglySorted_inv in Hs as [Hs Hhead].
  unfold fresh at 1. destruct (Z.gtb_spec (now - e.1) windowMs) as [Hgt|Hle]; simpl.
  - by apply IH.
  - f_equal. symmetry. apply filter_all.
    rewrite Forall_fmap in Hhead. eapply Forall_impl; [exact Hhead|].
    simpl. intros x Hx. unfold fresh. apply negb_true_iff.
    destruct (Z.gtb_spec (now - x.1) windowMs); [lia|done].
Qed.

Lemma filter_fst (P : Z → bool) (l : list (Z * N)) :
  (List.filter (λ e, P e.1) l).*1 = List.filter P l.*1.
Proof.
  induction l as [|e l IH]; [done|].
  rewrite fmap_cons. simpl. destruct (P e.1); [rewrite fmap_cons|]; by rewrite IH.
Qed.

(** X3.  In every state the limiter can reach, the request log is in
    non-decreasing time order and holds no time later than the clock; so
    whenever [prune] runs it removes exactly the entries older than
    60 seconds, from both logs, and keeps all the others. *)
Theorem prune_removes_exactly_the_stale evs s :
  run o createLimiter evs = Some s →
  StronglySorted Z.le (requestsTimestamps s)
  ∧ Forall (λ t, t ≤ clock s) (requestsTimestamps s)
  ∧ ∀ now,
      pruneRequests now (requestsTimestamps s)
        = List.filter (fresh now) (requestsTimestamps s)
      ∧ pruneTokens now (tokensTimestamps s)
        = List.filter (λ e, fresh now e.1) (tokensTimestamps s).
Proof.
  intros Hrun.
  assert (clockOk s) as [Hsync Hsorted Hpast _].
  { eapply (run_preserves o clockOk); [apply step_clockOk| |exact Hrun].
    apply createLimiter_clockOk. }
  split_and!; try done. intros now.
  assert (pruneTokens now (tokensTimestamps s)
          = List.filter (λ e, fresh now e.1) (tokensTimestamps s)) as Htok.
  { apply pruneTokens_exact. by rewrite <- Hsync. }
  split; [|done].
  rewrite Hsync, pruneRequests_fst, Htok. apply filter_fst.
Qed.

(** *** Entries that can never start *)

(** X4.  When the limiter has no slot (the test [0 >= maxConcurrent]
    holds), or allows no request per minute (the test
    [0 >= maxRequestsPerMinute] holds), or the entry at the head of the
    queue costs more than [maxTokensPerMinute], that entry is never
    admitted, whatever happens afterwards: it stays at the head, everything
    queued behind it or scheduled later stays behind it, and no task starts
    any more. *)
Theorem blocked_head_blocks_the_queue s item rest evs s' :
  queue s = item :: rest →
  Js.geb 0 (maxConcurrent o) = true ∨ Js.geb 0 (maxRequestsPerMinute o) = true
  ∨ Js.gtb (Z.of_N (tokens item)) (maxTokensPerMinute o) = true →
  run o s evs = Some s' →
  admissions s' = admissions s
  ∧ sublist (running s') (running s)
  ∧ ∃ later, queue s' = item :: rest ++ later.
Proof.
  intros Hq Hblocked Hrun.
  set (P := λ x : state Task,
         admissions x = admissions s ∧ sublist (running x) (running s)
         ∧ ∃ later, queue x = item :: rest ++ later).
  assert (∀ x, P x → P (runNext o x)) as Hnext.
  { intros x (Ha & Hr & later & Hqx).
    destruct (runNext_cases o x) as [_|i r _ Hq' _|i r Hact Hq' Hthr].
    - split_and!; eauto.
    - split_and!; simpl; [done..|]. exists later. congruence.
    - exfalso. rewrite Hqx in Hq'. injection Hq' as <- <-.
      unfold throttled in Hthr. apply orb_false_iff in Hthr as [Hr' Ht'].
      destruct Hblocked as [Hb|[Hb|Hb]].
      + enough (Js.geb (Z.of_nat (active x)) (maxConcurrent o) = true) by congruence.
        eapply geb_mono; [|exact Hb]; lia.
      + enough (Js.geb (Z.of_nat (length (pruneRequests (clock x) (requestsTimestamps x))))
                  (maxRequestsPerMinute o) = true) by congruence.
        eapply geb_mono; [|exact Hb]; lia.
      + enough (Js.gtb (Z.of_N (tokensUsedOf (pruneTokens (clock x) (tokensTimestamps x))
                                + tokens item)) (maxTokensPerMinute o) = true)
          by congruence.
        eapply gtb_mono; [|exact Hb]; lia. }
  apply (run_preserves o P) with (evs := evs) (s := s); [|by (split_and!; [..|exists []; rewrite app_nil_r])|done].
  intros x e x' HP Hs. destruct e as [f est| |i|i r|d]; simpl in Hs.
  - simplify_eq. destruct HP as (Ha & Hr & later & Hqx).
    split_and!; simpl; [done..|].
    eexists (later ++ [_]). rewrite Hqx. simpl. by rewrite <- (assoc_L (++)).
  - destruct (immediates x) eqn:E; [done|]. simplify_eq. by apply Hnext.
  - destruct (timers x !! i) as [due|] eqn:E; [|done].
    destruct (due <=? clock x); [|done]. simplify_eq. by apply Hnext.
  - destruct (running x !! i) as [it|] eqn:E; [|done]. simplify_eq.
    destruct HP as (Ha & Hr & Hl). split_and!; simpl; [done| |done].
    etrans; [apply sublist_delete|done].
  - by simplify_eq.
Qed.

(** *** Entries that can start do start *)

Lemma prune_all now (l : list (Z * N)) :
  Forall (λ t, t + windowMs < now) l.*1 →
  pruneRequests now l.*1 = [] ∧ pruneTokens now l = [].
Proof.
  induction l as [|e l IH]; [done|].
  rewrite fmap_cons. intros [He Hl]%Forall_cons. simpl.
  destruct (Z.gtb_spec (now - e.1) windowMs); [|lia]. by apply IH.
Qed.

(** Settling every task in flight, oldest first. *)
Lemma settleAll_run s :
  ∃ s', run o s (settleAll (length (running s))) = Some s'
        ∧ queue s' = queue s
        ∧ running s' = []
        ∧ active s' = (active s - length (running s))%nat
        ∧ immediates s' = (immediates s + length (running s))%nat
        ∧ timers s' = timers s
        ∧ clock s' = clock s
        ∧ requestsTimestamps s' = requestsTimestamps s
        ∧ tokensTimestamps s' = tokensTimestamps s
        ∧ admissions s' = admissions s.
Proof.
  remember (length (running s)) as n eqn:Hn. revert s Hn.
  induction n as [|n IH]; intros s Hn.
  - exists s. simpl. destruct (running s); [|done].
    split_and!; try done; lia.
  - destruct (running s) as [|item inFlight] eqn:Hr; [done|].
    simpl in Hn. injection Hn as Hn.
    destruct (IH (settle inFlight s) Hn)
      as (s' & Hrun & ? & ? & Hact & Himm & ? & ? & ? & ? & ?).
    exists s'. simpl. rewrite Hr. simpl.
    split_and!; try done.
    + rewrite Hact. simpl. lia.
    + rewrite Himm. simpl. lia.
Qed.

(** From a state that satisfies the limiter's invariants: the tasks in
    flight settle, a minute passes, and the pending [runNext] admits the
    head of the queue. *)
Lemma admitHead_run s item rest :
  concurrencyOk o s → wakeOk o s → clockOk s →
  queue s = item :: rest →
  Js.geb 0 (maxConcurrent o) = false →
  Js.geb 0 (maxRequestsPerMinute o) = false →
  Js.gtb (Z.of_N (tokens item)) (maxTokensPerMinute o) = false →
  ∃ s', run o s (admitHead s) = Some s'
        ∧ queue s' = rest
        ∧ running s' = [item]
        ∧ active s' = 1%nat
        ∧ admissions s' = admissions s ++ [(clock s + 60001, tokens item)].
Proof.
  intros [Hact _] Hwake [Hsync _ Hpast Htimers] Hq Hslot Hreq Htok.
  destruct (settleAll_run s)
    as (s1 & Hrun1 & Hq1 & Hr1 & Ha1 & Hi1 & Ht1 & Hc1 & Hreq1 & Htok1 & Hadm1).
  (* what [runNext] does once the clock has moved on and a callback runs *)
  assert (∀ x, queue x = item :: rest → active x = 0%nat →
               clock x = clock s + 60001 →
               requestsTimestamps x = requestsTimestamps s →
               tokensTimestamps x = tokensTimestamps s →
               running x = [] → admissions x = admissions s →
               queue (runNext o x) = rest ∧ running (runNext o x) = [item]
               ∧ active (runNext o x) = 1%nat
               ∧ admissions (runNext o x)
                 = admissions s ++ [(clock s + 60001, tokens item)]) as Hnext.
  { intros x Hqx Hax Hcx Hrx Htx Hrunx Hadmx.
    destruct (prune_all (clock x) (tokensTimestamps s)) as [Hpr Hpt].
    { rewrite <- Hsync. eapply Forall_impl; [exact Hpast|].
      simpl. unfold windowMs. lia. }
    unfold runNext. rewrite Hax, Hqx, Hrx, Htx, Hsync, Hpr, Hpt.
    change (Z.of_nat 0) with 0. rewrite Hslot.
    unfold throttled. change (Z.of_nat (length [])) with 0. rewrite Hreq.
    change (tokensUsedOf []) with 0%N. rewrite N.add_0_l, Htok.
    simpl. rewrite Hrunx, Hadmx, Hcx. done. }
  unfold admitHead. rewrite run_app_some with (s1 := s1) by done.
  simpl.
  destruct (immediates s) as [|n] eqn:Himm; [destruct (running s) as [|r0 rs] eqn:Hrs|].
  - (* no callback queued by a settlement: a retry timer is pending *)
    unfold wakeOk, pendingCalls in Hwake. rewrite Hq, Himm, Hact in Hwake.
    simpl in Hwake.
    destruct (timers s) as [|due ts] eqn:Hts.
    { exfalso. simpl in Hwake. destruct Hwake as [?|Hw]; [lia|].
      change (Z.of_nat 0) with 0 in Hw. congruence. }
    apply Forall_cons in Htimers as [Hdue _].
    simpl. rewrite Ht1. simpl. rewrite Hc1.
    destruct (Z.leb_spec due (clock s + 60001)); [|unfold retryDelayMs in Hdue; lia].
    eexists. split; [reflexivity|].
    apply Hnext; simpl; try done; try congruence.
    rewrite Ha1, Hact. simpl. done.
  - simpl. rewrite Hi1. simpl.
    eexists. split; [reflexivity|].
    apply Hnext; simpl; try done; try congruence.
    rewrite Ha1, Hact. simpl. lia.
  - simpl. rewrite Hi1. simpl.
    eexists. split; [reflexivity|].
    apply Hnext; simpl; try done; try congruence.
    rewrite Ha1, Hact. lia.
Qed.

(** The three invariants hold in every state the limiter can reach. *)
Lemma reachable_invariants evs s :
  run o createLimiter evs = Some s →
  concurrencyOk o s ∧ wakeOk o s ∧ clockOk s.
Proof.
  intros Hrun. split_and!.
  - eapply (run_preserves o (concurrencyOk o));
      [apply step_concurrencyOk|apply createLimiter_concurrencyOk|exact Hrun].
  - eapply (run_preserves o (wakeOk o));
      [apply step_wakeOk|apply createLimiter_wakeOk|exact Hrun].
  - eapply (run_preserves o clockOk); [apply step_clockOk| |exact Hrun].
    apply createLimiter_clockOk.
Qed.

(** X5.  In every state the limiter can reach, if the ceilings let a first
    task start (the tests [0 >= maxConcurrent] and
    [0 >= maxRequestsPerMinute] fail: at least one slot and one request per
    minute) and the entry at the head of the queue does not cost more than
    [maxTokensPerMinute], then that entry can start without anything new
    being scheduled: once the tasks in flight have settled and a minute has
    passed, the next pending [runNext], which exists, admits it. *)
Theorem head_can_always_start evs s item rest :
  run o createLimiter evs = Some s →
  queue s = item :: rest →
  Js.geb 0 (maxConcurrent o) = false →
  Js.geb 0 (maxRequestsPerMinute o) = false →
  Js.gtb (Z.of_N (tokens item)) (maxTokensPerMinute o) = false →
  ∃ s', run o s (admitHead s) = Some s'
        ∧ queue s' = rest
        ∧ running s' = [item]
        ∧ active s' = 1%nat
        ∧ admissions s' = admissions s ++ [(clock s + 60001, tokens item)].
Proof.
  intros Hrun Hq Hslot Hreq Htok.
  destruct (reachable_invariants evs s Hrun) as (Hconc & Hwake & Hclock).
  destruct (admitHead_run s item rest Hconc Hwake Hclock Hq Hslot Hreq Htok)
    as (s' & Hrun' & Hrest).
  exists s'. split; [exact Hrun'|exact Hrest].
Qed.

End LimiterOrder.

(** The further properties of the limiter on concrete schedules. *)

Lemma no_lost_wakeup_witness :
  Throttle.run Examples.limits Throttle.createLimiter (take 6 Examples.twoTasks)
    = Some Examples.outOfRequests
  ∧ (1 ≤ Throttle.immediates Examples.outOfRequests
         + length (Throttle.timers Examples.outOfRequests)
         + length (Throttle.running Examples.outOfRequests))%nat.
Proof.
  split; [reflexivity|].
  destruct (no_lost_wakeup Examples.limits (take 6 Examples.twoTasks)
              Examples.outOfRequests eq_refl) as (_ & _ & Hpending).
  apply Hpending; [discriminate|reflexivity].
Defined.


Lemma prune_removes_exactly_the_stale_witness :
  Throttle.run Examples.limits Throttle.createLimiter Examples.twoTasks
    = Some Examples.afterTwoTasks
  ∧ Throttle.pruneRequests 130000 (Throttle.requestsTimestamps Examples.afterTwoTasks)
    = List.filter (Limits.fresh 130000)
        (Throttle.requestsTimestamps Examples.afterTwoTasks).
Proof.
  split; [reflexivity|].
  destruct (prune_removes_exactly_the_stale Examples.limits Examples.twoTasks
              Examples.afterTwoTasks eq_refl) as (_ & _ & Hexact).
  apply Hexact.
Defined.

Lemma blocked_head_blocks_the_queue_witness :
  Throttle.queue Cases.costlyQueued = [Cases.costly]
  ∧ Js.gtb (Z.of_N (Throttle.tokens Cases.costly))
      (Throttle.maxTokensPerMinute Cases.tight) = true
  ∧ Throttle.run Cases.tight Cases.costlyQueued Cases.tryingHard
    = Some Cases.stillQueued
  ∧ Throttle.admissions Cases.stillQueued = Throttle.admissions Cases.costlyQueued.
Proof.
  split; [reflexivity|]. split; [reflexivity|]. split; [reflexivity|].
  apply (blocked_head_blocks_the_queue Cases.tight Cases.costlyQueued Cases.costly []
           Cases.tryingHard Cases.stillQueued).
  - reflexivity.
  - right. right. reflexivity.
  - reflexivity.
Defined.

Lemma head_can_always_start_witness :
  Throttle.run Examples.limits Throttle.createLimiter (take 6 Examples.twoTasks)
    = Some Examples.outOfRequests
  ∧ ∃ s', Throttle.run Examples.limits Examples.outOfRequests
            (Limits.admitHead Examples.outOfRequests) = Some s'
          ∧ Throttle.queue s' = []
          ∧ Throttle.running s' = [{| Throttle.fn := 2%nat; Throttle.tokens := 80 |}].
Proof.
  split; [reflexivity|].
  destruct (head_can_always_start Examples.limits (take 6 Examples.twoTasks)
              Examples.outOfRequests
              {| Throttle.fn := 2%nat; Throttle.tokens := 80 |} [])
    as (s' & Hrun & Hq & Hr & _).
  - reflexivity.
  - reflexivity.
  - reflexivity.
  - reflexivity.
  - reflexivity.
  - exists s'. split; [exact Hrun|]. split; [exact Hq|exact Hr].
Defined.

(** * Further properties of the retry wrapper *)

Section RetryOutcomes.

Import Runner Totals.

Context {T : Type}.
Variables (fn : nat → outcome T) (random : nat → Q) (retries : nat).

(** The run of the wrapper, with what the loop lemmas say about it. *)
Lemma withRetry_run :
  ∃ r, withRetry fn random retries = Some r
       ∧ (1 ≤ invocations r ≤ S retries)%nat
       ∧ ended r = fn (invocations r - 1)%nat
       ∧ (∀ k, (S k < invocations r)%nat →
               ∃ err, fn k = Thrown err ∧ retriable err = true)
       ∧ (∀ err, ended r = Thrown err →
                 retriable err = false ∨ invocations r = S retries)
       ∧ length (waits r) = (invocations r - 1)%nat
       ∧ ∀ k w, waits r !! k = Some w → w = waitAt random initialDelayMs 0 k.
Proof.
  destruct (withRetryLoop_enough fn random retries (S retries) 0 initialDelayMs 0 [])
    as [r Hr]; [lia..|].
  exists r. split; [exact Hr|].
  pose proof (withRetryLoop_sound _ _ _ _ _ _ _ _ _ Hr)
    as (Hlt & Hend & Hmid & Hbound & Hterm & Hwaits).
  simpl in Hwaits.
  split_and!; try done; try lia.
  - intros k Hk. apply Hmid; lia.
  - intros err Herr. destruct (Hterm err Herr); [by left|right; lia].
  - by rewrite Hwaits, length_fmap, length_seq.
  - intros k w. rewrite Hwaits, list_lookup_fmap.
    destruct (seq 0 (invocations r - 1) !! k) as [i|] eqn:Hi; [|done].
    apply lookup_seq in Hi as [-> _]. simpl. congruence.
Qed.

(** X6.  When the operation fails retriably [k] times, with [k] at most
    [retries], and then succeeds, [withRetry] returns that success after
    exactly [k + 1] invocations and [k] waits: no attempt is wasted and the
    earlier failures leave no trace in the result. *)
Theorem withRetry_recovers k v :
  (k ≤ retries)%nat →
  (∀ j, (j < k)%nat → ∃ err, fn j = Thrown err ∧ retriable err = true) →
  fn k = Returned v →
  ∃ r, withRetry fn random retries = Some r
       ∧ ended r = Returned v
       ∧ invocations r = S k
       ∧ length (waits r) = k.
Proof.
  intros Hk Hfail Hok.
  destruct withRetry_run as (r & Hr & Hcalls & Hend & Hmid & Hterm & Hlen & _).
  assert (invocations r = S k) as Hinv.
  { destruct (Nat.lt_trichotomy (invocations r - 1) k) as [Hlt|[Heq|Hgt]]; [|lia|].
    - destruct (Hfail _ Hlt) as (err & Herr & Hretr).
      rewrite Herr in Hend. destruct (Hterm err Hend) as [?|?]; [congruence|lia].
    - destruct (Hmid k) as (err & Herr & _); [lia|congruence]. }
  exists r. rewrite Hinv in Hend, Hlen. simpl in Hend, Hlen.
  rewrite Nat.sub_0_r in Hend, Hlen.
  split_and!; [done|congruence|done|done].
Qed.

(** X7.  When every one of the first [retries + 1] invocations fails
    retriably, [withRetry] makes exactly [retries + 1] invocations and
    [retries] waits and throws what the last invocation threw. *)
Theorem withRetry_gives_up_after_retries :
  (∀ j, (j ≤ retries)%nat → ∃ err, fn j = Thrown err ∧ retriable err = true) →
  ∃ r err, withRetry fn random retries = Some r
       ∧ invocations r = S retries
       ∧ length (waits r) = retries
       ∧ fn retries = Thrown err
       ∧ ended r = Thrown err.
Proof.
  intros Hfail.
  destruct withRetry_run as (r & Hr & Hcalls & Hend & _ & Hterm & Hlen & _).
  destruct (Hfail (invocations r - 1)%nat) as (err & Herr & Hretr); [lia|].
  rewrite Herr in Hend.
  assert (invocations r = S retries) as Hinv.
  { destruct (Hterm err Hend); [congruence|done]. }
  exists r, err. rewrite Hinv in Herr, Hlen. simpl in Herr, Hlen.
  rewrite Nat.sub_0_r in Herr, Hlen.
  split_and!; done.
Qed.

Lemma nextDelay_range k : 500 ≤ Nat.iter k nextDelay initialDelayMs ≤ 8000.
Proof.
  rewrite nextDelay_iter.
  assert (1 ≤ 2 ^ Z.of_nat k) by (apply Z.pow_le_mono_r with (b := 0); lia).
  lia.
Qed.

Lemma totalWait_bound (ws : list Wait) :
  Forall (λ w, 500 ≤ timeoutMs w ≤ 8199) ws →
  500 * Z.of_nat (length ws) ≤ foldr (λ w acc, timeoutMs w + acc) 0 ws
    ≤ 8199 * Z.of_nat (length ws).
Proof.
  induction 1 as [|w ws Hw _ IH]; simpl; [lia|].
  rewrite Nat2Z.inj_succ. lia.
Qed.

(** X8.  One call of [withRetry] waits between 500 ms and 8199 ms before
    each retry, so in all at most [8199 * retries] ms, and nothing at all
    when the first invocation settles the matter. *)
Theorem withRetry_waits_are_bounded r :
  withRetry fn random retries = Some r →
  (∀ k, 0 <= random k ∧ random k < 1)%Q →
  Forall (λ w, 500 ≤ timeoutMs w ≤ 8199) (waits r)
  ∧ 500 * Z.of_nat (invocations r - 1) ≤ totalWait r
      ≤ 8199 * Z.of_nat (invocations r - 1)
  ∧ totalWait r ≤ 8199 * Z.of_nat retries
  ∧ (invocations r = 1%nat → totalWait r = 0).
Proof.
  intros Hr Hrandom.
  destruct withRetry_run as (r' & Hr' & Hcalls & _ & _ & _ & Hlen & Hat).
  assert (r' = r) as -> by congruence.
  assert (Forall (λ w, 500 ≤ timeoutMs w ≤ 8199) (waits r)) as Hall.
  { apply Forall_lookup. intros k w Hw. apply Hat in Hw as ->.
    unfold waitAt; simpl.
    pose proof (nextDelay_range k).
    pose proof (jitterOf_range (random k) (proj1 (Hrandom k)) (proj2 (Hrandom k))).
    lia. }
  pose proof (totalWait_bound _ Hall) as Hsum. rewrite Hlen in Hsum.
  unfold totalWait. split_and!; [done|lia|lia|lia|].
  intros H1. rewrite H1 in Hsum. simpl in Hsum. lia.
Qed.

End RetryOutcomes.

(** The wrapper on an operation that fails once and on one that always
    fails. *)

Lemma withRetry_recovers_witness :
  (1 ≤ 2)%nat
  ∧ Cases.flaky 1%nat = Runner.Returned ("kia ora", "{}")
  ∧ ∃ r, Runner.withRetry Cases.flaky Examples.halfway 2 = Some r
         ∧ Runner.ended r = Runner.Returned ("kia ora", "{}")
         ∧ Runner.invocations r = 2%nat
         ∧ length (Runner.waits r) = 1%nat.
Proof.
  split; [lia|]. split; [reflexivity|].
  apply (withRetry_recovers Cases.flaky Examples.halfway 2 1).
  - lia.
  - intros j Hj. assert (j = 0%nat) as -> by lia.
    exists Examples.serverError. split; reflexivity.
  - reflexivity.
Defined.

Lemma withRetry_gives_up_after_retries_witness :
  ∃ r err, Runner.withRetry Examples.alwaysServerError Examples.halfway 2 = Some r
           ∧ Runner.invocations r = 3%nat
           ∧ length (Runner.waits r) = 2%nat
           ∧ Examples.alwaysServerError 2%nat = Runner.Thrown err
           ∧ Runner.ended r = Runner.Thrown err.
Proof.
  apply (withRetry_gives_up_after_retries Examples.alwaysServerError Examples.halfway 2).
  intros j _. exists Examples.serverError. split; reflexivity.
Defined.

Lemma withRetry_waits_are_bounded_witness :
  Runner.withRetry Examples.alwaysServerError Examples.halfway 2
    = Some Examples.threeAttempts
  ∧ Totals.totalWait Examples.threeAttempts ≤ 8199 * 2.
Proof.
  split; [reflexivity|].
  destruct (withRetry_waits_are_bounded Examples.alwaysServerError Examples.halfway 2
              Examples.threeAttempts eq_refl) as (_ & _ & Htotal & _).
  - intros k. split; [unfold Qle|unfold Qlt]; simpl; lia.
  - exact Htotal.
Defined.

(** * Further properties of a run *)

Section RunLimits.

Import Runner Totals.

Variables (opts : RunOptions) (env : Env).

Implicit Types (s : RunState) (u : WorkItem).

(** X9.  The estimate is a quarter of the prompt's length, rounded up,
    plus 50: it is at least 50 (so the [Math.max] never decides), it is 50
    for the empty prompt, four times the part above 50 covers the length
    with less than four to spare, and a longer prompt never gets a smaller
    estimate. *)
Theorem estimateTokens_bounds (text : string) :
  estimateTokens text = ((N.of_nat (String.length text) + 3) / 4 + 50)%N
  ∧ (50 ≤ estimateTokens text)%N
  ∧ (N.of_nat (String.length text) ≤ 4 * (estimateTokens text - 50)
     < N.of_nat (String.length text) + 4)%N
  ∧ estimateTokens "" = 50%N
  ∧ ∀ longer, (String.length text ≤ String.length longer)%nat →
              (estimateTokens text ≤ estimateTokens longer)%N.
Proof.
  assert (∀ t, estimateTokens t = ((N.of_nat (String.length t) + 3) / 4 + 50)%N) as Heq.
  { intros t. unfold estimateTokens. cbv zeta. apply N.max_r.
    apply N.le_add_l. }
  assert (∀ n, n = 4 * (n / 4) + n mod 4 ∧ n mod 4 < 4)%N as Hdiv.
  { intros n. split; [apply N.Div0.div_mod|by apply N.mod_upper_bound]. }
  destruct (Hdiv (N.of_nat (String.length text) + 3)%N) as [Hq Hr].
  split_and!.
  - apply Heq.
  - rewrite Heq. apply N.le_add_l.
  - rewrite Heq. revert Hq Hr.
    generalize ((N.of_nat (String.length text) + 3) / 4)%N
               ((N.of_nat (String.length text) + 3) mod 4)%N. lia.
  - rewrite Heq. revert Hq Hr.
    generalize ((N.of_nat (String.length text) + 3) / 4)%N
               ((N.of_nat (String.length text) + 3) mod 4)%N. lia.
  - done.
  - intros longer Hlen. rewrite !Heq.
    apply N.add_le_mono_r, N.Div0.div_le_mono. lia.
Qed.

(** *** The limiter of a run is a limiter *)

Lemma scheduledBy_app (evs1 evs2 : list (Throttle.event WorkItem)) :
  Limits.scheduledBy (evs1 ++ evs2)
  = Limits.scheduledBy evs1 ++ Limits.scheduledBy evs2.
Proof.
  induction evs1 as [|e evs1 IH]; simpl; [done|].
  destruct e; simpl; by rewrite IH.
Qed.

Lemma run_schedules (us : list WorkItem) (l : Throttle.state WorkItem) :
  Throttle.run (limiterOptions opts) l
    ((λ u, Throttle.EvSchedule u (Some (estimateTokens (prompt (unitTest u))))) <$> us)
  = Some (foldl (λ st w, Throttle.schedule w
                   (Some (estimateTokens (prompt (unitTest w)))) st) l us)
  ∧ Limits.scheduledBy
      ((λ u, Throttle.EvSchedule u (Some (estimateTokens (prompt (unitTest u))))) <$> us)
    = entryOf <$> us.
Proof.
  revert l. induction us as [|u us IH]; intros l; [done|].
  rewrite !fmap_cons. simpl. destruct (IH (Throttle.schedule u
    (Some (estimateTokens (prompt (unitTest u)))) l)) as [-> ->]. done.
Qed.

(** What a turn of the run does to its limiter: a turn of the limiter other
    than a [schedule], or nothing. *)
Lemma runStep_limiter s (e : runEvent) s' :
  runStep opts env s e = Some s' →
  limiter s' = limiter s
  ∨ ∃ le, Throttle.step (limiterOptions opts) (limiter s) le = Some (limiter s')
          ∧ Limits.scheduledBy [le] = [].
Proof.
  intros Hstep. destruct e as [[f est| |i|i r|d]|]; simpl in Hstep.
  - done.
  - destruct (Throttle.immediates (limiter s)) as [|n] eqn:Hn; [done|].
    simpl in Hstep. simplify_eq. right. exists Throttle.EvImmediate.
    simpl. by rewrite Hn.
  - destruct (Throttle.timers (limiter s) !! i) as [due|] eqn:Hd; [|done].
    simpl in Hstep. destruct (due <=? Throttle.clock (limiter s)) eqn:Hdue; [|done].
    simpl in Hstep. simplify_eq. right. exists (Throttle.EvTimer i).
    simpl. by rewrite Hd, Hdue.
  - destruct (Throttle.running (limiter s) !! i) as [item|] eqn:Hi; [|done].
    simpl in Hstep.
    destruct (unitBody env (retries opts) (Throttle.fn item)) as [[res|err]|]; [| |done];
      simpl in Hstep; destruct r; simplify_eq;
      right; exists (Throttle.EvSettle i Throttle.Fulfilled) || exists (Throttle.EvSettle i Throttle.Rejected);
      simpl; by rewrite Hi.
  - simplify_eq. right. by exists (Throttle.EvTick d).
  - destruct (finished s); [done|]. destruct (noneOutstanding s); [|done].
    simplify_eq. by left.
Qed.

Lemma run_limiter_reachable (evs : list runEvent) s :
  runEvents opts env (runBenchmark opts) evs = Some s →
  ∃ levs, Throttle.run (limiterOptions opts) Throttle.createLimiter levs
            = Some (limiter s)
          ∧ Limits.scheduledBy levs = entryOf <$> workItems opts.
Proof.
  assert (∀ evs s0 s, (∃ levs, Throttle.run (limiterOptions opts)
                                  Throttle.createLimiter levs = Some (limiter s0)
                                ∧ Limits.scheduledBy levs = entryOf <$> workItems opts) →
            runEvents opts env s0 evs = Some s →
            ∃ levs, Throttle.run (limiterOptions opts) Throttle.createLimiter levs
                      = Some (limiter s)
                    ∧ Limits.scheduledBy levs = entryOf <$> workItems opts) as Hgen.
  { clear evs s. intros evs. induction evs as [|e evs IH]; intros s0 s Hreach Hrun;
      simpl in Hrun.
    - by simplify_eq.
    - destruct (runStep opts env s0 e) as [s1|] eqn:Hs; [|done].
      apply (IH s1 s); [|done].
      destruct Hreach as (levs & Hl & Hsched).
      destruct (runStep_limiter _ _ _ Hs) as [->|(le & Hle & Hnone)]; [eauto|].
      exists (levs ++ [le]). split.
      + rewrite (run_app_some _ _ _ _ _ Hl). simpl. by rewrite Hle.
      + by rewrite scheduledBy_app, Hnone, app_nil_r. }
  apply Hgen.
  destruct (run_schedules (workItems opts) Throttle.createLimiter) as [Hrun Hsched].
  eexists. split; [exact Hrun|exact Hsched].
Qed.


(** *** Progress of a run *)

(** With every failure record writable no unit is lost. *)
Lemma nothing_lost s :
  failuresWritable env → runOk opts env s → lost s = [].
Proof.
  intros Hwritable [_ Hlost _ _ _ _].
  destruct (lost s) as [|u us]; [done|].
  apply Forall_cons in Hlost as [[err Herr] _].
  destruct (unitBody_returns opts env u Hwritable) as [res Hres]. congruence.
Qed.

(** X11.  At every moment of a run each unit is counted once: the results
    appended so far, which [completed] counts, plus the units whose
    scheduled function threw, plus the units queued, plus the units in
    flight are [models.length * suite.length]; so [completed] never passes
    the [total] reported with it.  When every failure record can be
    written, no unit throws, and [completed] reaches [total] exactly when
    nothing is outstanding. *)
Theorem progress_counts_every_unit (evs : list runEvent) s :
  runEvents opts env (runBenchmark opts) evs = Some s →
  completed s = length (results s)
  ∧ (completed s + length (lost s) + length (Throttle.queue (limiter s))
     + length (Throttle.running (limiter s)) = total opts)%nat
  ∧ (completed s ≤ total opts)%nat
  ∧ total opts = (length (models opts) * length (suite opts))%nat
  ∧ (failuresWritable env →
     lost s = [] ∧ (noneOutstanding s = true ↔ completed s = total opts)).
Proof.
  intros Hrun.
  pose proof (runEvents_runOk opts env evs _ _ (runBenchmark_runOk opts env) Hrun)
    as Hok.
  destruct (run_units _ _ _ Hok) as (settled & Hperm & Hres).
  pose proof (run_completed _ _ _ Hok) as Hcount.
  assert (completed s + length (lost s) + length (Throttle.queue (limiter s))
          + length (Throttle.running (limiter s)) = total opts)%nat as Hsum.
  { apply Permutation_length in Hperm.
    rewrite !length_app, !length_fmap, workItems_length in Hperm.
    rewrite Hcount, <- (Forall2_length _ _ _ Hres). lia. }
  split_and!; [done|done|lia|done|].
  intros Hwritable.
  assert (lost s = []) as Hnone by (by apply nothing_lost).
  split; [done|]. rewrite Hnone in Hsum. simpl in Hsum.
  unfold noneOutstanding.
  destruct (Throttle.queue (limiter s)), (Throttle.running (limiter s));
    simpl in Hsum; split; (done || lia).
Qed.

(** X12.  A run with a unit that the limiter can never admit does not
    return: when no slot or no request per minute is configured (the test
    [0 >= concurrency] or [0 >= maxRequestsPerMinute] holds), or the
    estimate of some unit's prompt exceeds [maxTokensPerMinute], that unit
    stays queued in every state of the run, so [runBenchmark] never
    returns; and unless a failure record cannot be written or the progress
    callback throws, which reject it, it stays pending. *)
Theorem unsatisfiable_budget_hangs_the_run u (evs : list runEvent) s :
  u ∈ workItems opts →
  Js.geb 0 (concurrency opts) = true ∨ Js.geb 0 (maxRequestsPerMinute opts) = true
  ∨ Js.gtb (Z.of_N (estimateTokens (prompt (unitTest u)))) (maxTokensPerMinute opts)
    = true →
  runEvents opts env (runBenchmark opts) evs = Some s →
  entryOf u ∈ Throttle.queue (limiter s)
  ∧ (∀ out, finished s ≠ Some (Returned out))
  ∧ (failuresWritable env → progressReturns env → finished s = None).
Proof.
  intros Hu Hblocked Hrun.
  assert (entryOf u ∈ Throttle.queue (limiter s)) as Hin.
  { destruct (run_limiter_reachable evs s Hrun) as (levs & Hl & Hsched).
    clear Hrun.
    assert (∀ x, entryOf u ∈ Throttle.queue x →
                 entryOf u ∈ Throttle.queue (Throttle.runNext (limiterOptions opts) x))
      as Hnext.
    { intros x Hx.
      destruct (runNext_cases (limiterOptions opts) x)
        as [_|i r _ Hq _|i r Hact Hq Hthr]; simpl; [done|by rewrite <- Hq|].
      rewrite Hq in Hx. apply elem_of_cons in Hx as [<-|Hx]; [|done].
      exfalso. unfold Throttle.throttled in Hthr.
      apply orb_false_iff in Hthr as [Hr' Ht']. simpl in *.
      destruct Hblocked as [Hb|[Hb|Hb]].
      - enough (Js.geb (Z.of_nat (Throttle.active x)) (concurrency opts) = true)
          by congruence.
        eapply geb_mono; [|exact Hb]; lia.
      - rewrite (geb_mono 0 _ _ (Zle_0_nat _) Hb) in Hr'. done.
      - rewrite (gtb_mono _ _ _ ltac:(apply N2Z.inj_le, N.le_add_l) Hb) in Ht'. done. }
    (* from the moment the unit is scheduled it stays in the queue *)
    assert (∀ levs x y, entryOf u ∈ Throttle.queue x ∨ entryOf u ∈ Limits.scheduledBy levs →
              Throttle.run (limiterOptions opts) x levs = Some y →
              entryOf u ∈ Throttle.queue y) as Hgen.
    { clear levs Hl Hsched. intros levs.
      induction levs as [|e levs IH]; intros x y Hx Hr; simpl in Hr.
      - simplify_eq. destruct Hx as [?|Hx]; [done|by apply elem_of_nil in Hx].
      - destruct (Throttle.step (limiterOptions opts) x e) as [x1|] eqn:Hs; [|done].
        apply (IH x1 y); [|done].
        destruct e as [f est| |i|i r|d]; simpl in Hs, Hx.
        + simplify_eq. simpl. destruct Hx as [Hx|Hx].
          * left. apply elem_of_app. by left.
          * apply elem_of_cons in Hx as [->|Hx]; [|by right].
            left. apply elem_of_app. right. by apply list_elem_of_singleton.
        + destruct (Throttle.immediates x); [done|]. simplify_eq.
          destruct Hx as [Hx|Hx]; [left; by apply Hnext|by right].
        + destruct (Throttle.timers x !! i); [|done].
          destruct (_ <=? _); [|done]. simplify_eq.
          destruct Hx as [Hx|Hx]; [left; by apply Hnext|by right].
        + destruct (Throttle.running x !! i); [|done]. by simplify_eq.
        + by simplify_eq. }
    apply (Hgen levs Throttle.createLimiter); [|done].
    right. rewrite Hsched. by apply list_elem_of_fmap_2. }
  pose proof (runEvents_runOk opts env evs _ _ (runBenchmark_runOk opts env) Hrun)
    as Hok.
  assert (∀ out, finished s ≠ Some (Returned out)) as Hnever.
  { intros out Hout.
    destruct (run_returned _ _ _ Hok out Hout) as (_ & _ & _ & _ & Hq & _).
    rewrite Hq in Hin. by apply elem_of_nil in Hin. }
  split_and!; [done|done|].
  intros Hwritable Hquiet.
  destruct (finished s) as [[out|err]|] eqn:Hf; [by destruct (Hnever out)| |done].
  exfalso.
  destruct (run_thrown _ _ _ Hok err Hf)
    as [(v & Hv & _)|[(done & r & Hp)|(out & _ & Hq & _)]].
  - rewrite (nothing_lost s Hwritable Hok) in Hv. by apply elem_of_nil in Hv.
  - by rewrite Hquiet in Hp.
  - rewrite Hq in Hin. by apply elem_of_nil in Hin.
Qed.

(** *** A run that can finish does *)






(** What [runBenchmark] returns holds the results of all units, each unit
    taken once. *)
Lemma returned_results s out :
  runOk opts env s → finished s = Some (Returned out) →
  ∃ settled, settled ≡ₚ workItems opts
    ∧ Forall2 (λ u r, unitBody env (retries opts) u = Some (Returned r))
        settled (outResults out).
Proof.
  intros [(settled & Hperm & Hres) _ _ _ Hret _] Hout.
  destruct (Hret _ Hout) as (-> & _ & _ & _ & Hq & Hr & Hl).
  rewrite Hq, Hr, Hl in Hperm. simpl in Hperm. rewrite app_nil_r in Hperm.
  by exists settled.
Qed.

Lemma finished_results_length s out :
  runOk opts env s → finished s = Some (Returned out) →
  length (outResults out) = total opts.
Proof.
  intros Hok Hout.
  destruct (returned_results s out Hok Hout) as (settled & Hperm & Hres).
  by rewrite <- (Forall2_length _ _ _ Hres), Hperm, workItems_length.
Qed.


(** *** What a run returns, and why it can reject *)

(** The scheduled function throws only what [writeTrace] threw in its
    [catch] branch. *)
Lemma unitBody_thrown u err :
  unitBody env (retries opts) u = Some (Thrown err) →
  ∃ cause, writeTrace env u (failureResult env u cause) = Some err.
Proof.
  unfold unitBody, catchBranch. intros Hbody.
  repeat case_match; simplify_eq; eauto.
Qed.

(** X22.  However the event loop interleaves a run and whatever the
    collaborators do: once [runBenchmark] has returned, nothing is queued or
    in flight, the results number [models.length * suite.length], they are
    the results of the scheduled functions of all the units, each unit taken
    once, so their (model, test id) pairs are those of the cross-product up
    to order, and the summary is computed from them.  And [runBenchmark]
    rejects only with what [writeTrace] threw for a failure record, what
    the progress callback threw or what the writing of the report threw: a
    failure of a completion call or of the evaluator never rejects it. *)
Theorem run_returns_every_result (evs : list runEvent) s :
  runEvents opts env (runBenchmark opts) evs = Some s →
  (∀ out, finished s = Some (Returned out) →
     length (outResults out) = (length (models opts) * length (suite opts))%nat
     ∧ (∃ settled, settled ≡ₚ workItems opts ∧ NoDup settled
          ∧ Forall2 (λ u r, unitBody env (retries opts) u = Some (Returned r))
              settled (outResults out))
     ∧ (λ r, (model r, testId r)) <$> outResults out
         ≡ₚ (λ p, (name p.1, id p.2)) <$> pairs opts
     ∧ Throttle.queue (limiter s) = [] ∧ Throttle.running (limiter s) = []
     ∧ summary out = summarize (outResults out))
  ∧ (∀ err, finished s = Some (Thrown err) →
       (∃ u cause, u ∈ workItems opts
          ∧ writeTrace env u (failureResult env u cause) = Some err)
       ∨ (∃ done r, onProgress env done (total opts) r = Some err)
       ∨ (∃ out, writeReport env out = Some err))
  ∧ (failuresWritable env → progressReturns env → reportWritable env →
     ∀ err, finished s ≠ Some (Thrown err)).
Proof.
  intros Hrun.
  pose proof (runEvents_runOk opts env evs _ _ (runBenchmark_runOk opts env) Hrun)
    as Hok.
  assert (∀ err, finished s = Some (Thrown err) →
            (∃ u cause, u ∈ workItems opts
               ∧ writeTrace env u (failureResult env u cause) = Some err)
            ∨ (∃ done r, onProgress env done (total opts) r = Some err)
            ∨ (∃ out, writeReport env out = Some err)) as Hwhy.
  { intros err Herr.
    destruct (run_thrown _ _ _ Hok err Herr)
      as [(u & Hu & Hbody)|[?|(out & Hw & _)]]; [left|by right; left|right; right; eauto].
    destruct (unitBody_thrown u err Hbody) as [cause Hcause].
    exists u, cause. split; [|done].
    destruct (run_units _ _ _ Hok) as (settled & Hperm & _).
    rewrite <- Hperm. rewrite !elem_of_app. auto. }
  split_and!; [|exact Hwhy|].
  - intros out Hout.
    destruct (returned_results s out Hok Hout) as (settled & Hperm & Hres).
    destruct (run_returned _ _ _ Hok out Hout) as (Hresults & _ & Hsum & _ & Hq & Hr & _).
    split_and!; try done.
    + rewrite (finished_results_length s out Hok Hout). done.
    + exists settled. split_and!; [done| |done].
      rewrite Hperm. apply workItems_NoDup.
    + assert ((λ r, (model r, testId r)) <$> outResults out
              = (λ u, (name (unitModel u), id (unitTest u))) <$> settled) as ->.
      { clear -Hres. induction Hres as [|u r us rs Hu _ IH]; [done|].
        destruct (unitBody_result opts env u r Hu) as [Hm Ht].
        rewrite !fmap_cons, IH. by rewrite Hm, Ht. }
      by rewrite Hperm, workItems_keys.
    + by rewrite Hresults.
  - intros Hwritable Hquiet Hreport err Herr.
    destruct (Hwhy err Herr) as [(u & cause & _ & Hw)|[(done & r & Hp)|(out & Hw)]].
    + by rewrite Hwritable in Hw.
    + by rewrite Hquiet in Hp.
    + by rewrite Hreport in Hw.
Qed.

(** X23.  When the retried completion call of a unit in flight has ended
    with a failure and the failure record can be written, the unit's
    promise fulfils and not otherwise, and its [then] callback appends
    exactly the failure record: score 0, an empty response and, as error,
    the message of the failure ([String] of it if it is not an [Error]);
    [completed] goes up by one, and if the progress callback returns, the
    promise of [runBenchmark] is left as it is. *)
Theorem terminal_failure_is_recorded s (i : nat) item r err :
  Throttle.running (limiter s) !! i = Some item →
  withRetry (complete env (Throttle.fn item)) (random env (Throttle.fn item))
    (retries opts) = Some r →
  ended r = Thrown err →
  writeTrace env (Throttle.fn item) (failureResult env (Throttle.fn item) err) = None →
  (∃ s', runStep opts env s (Loop (Throttle.EvSettle i Throttle.Fulfilled)) = Some s'
     ∧ results s' = results s ++ [failureResult env (Throttle.fn item) err]
     ∧ completed s' = S (completed s)
     ∧ lost s' = lost s
     ∧ (onProgress env (S (completed s)) (total opts)
          (failureResult env (Throttle.fn item) err) = None →
        finished s' = finished s))
  ∧ runStep opts env s (Loop (Throttle.EvSettle i Throttle.Rejected)) = None
  ∧ score (failureResult env (Throttle.fn item) err) = 0%Qc
  ∧ response (failureResult env (Throttle.fn item) err) = ""
  ∧ error (failureResult env (Throttle.fn item) err)
    = Some (if isError err then message err else asString err).
Proof.
  intros Hi Hr Hend Hw.
  assert (unitBody env (retries opts) (Throttle.fn item)
          = Some (Returned (failureResult env (Throttle.fn item) err))) as Hbody.
  { unfold unitBody, catchBranch. by rewrite Hr, Hend, Hw. }
  split_and!; [|by simpl; rewrite Hi; simpl; rewrite Hbody|done..].
  simpl. rewrite Hi. simpl. rewrite Hbody. simpl.
  eexists. split; [reflexivity|]. simpl. split_and!; [done..|].
  by intros ->.
Qed.

End RunLimits.

(** The further properties of a run on the small run. *)


Lemma progress_counts_every_unit_witness :
  Runner.runEvents Examples.smallRun Examples.smallEnv
    (Runner.runBenchmark Examples.smallRun) Examples.smallSchedule
    = Some Examples.smallFinal
  ∧ Runner.completed Examples.smallFinal
    = length (Runner.results Examples.smallFinal)
  ∧ (Runner.completed Examples.smallFinal ≤ Runner.total Examples.smallRun)%nat.
Proof.
  split; [reflexivity|].
  destruct (progress_counts_every_unit Examples.smallRun Examples.smallEnv
              Examples.smallSchedule Examples.smallFinal eq_refl)
    as (Hcount & _ & Hle & _).
  split; [exact Hcount|exact Hle].
Defined.

Lemma unsatisfiable_budget_hangs_the_run_witness :
  Cases.alphaUnit ∈ Runner.workItems Cases.starved
  ∧ Js.gtb (Z.of_N (Runner.estimateTokens (Runner.prompt (Runner.unitTest Cases.alphaUnit))))
      (Runner.maxTokensPerMinute Cases.starved) = true
  ∧ Runner.runEvents Cases.starved Examples.smallEnv
      (Runner.runBenchmark Cases.starved)
      [Runner.Loop Throttle.EvImmediate; Runner.Loop (Throttle.EvTick 250);
       Runner.Loop (Throttle.EvTimer 0)]
    = Some Cases.starvedState
  ∧ Runner.finished Cases.starvedState = None.
Proof.
  assert (Cases.alphaUnit ∈ Runner.workItems Cases.starved) as Hin.
  { vm_compute. left. }
  split; [exact Hin|]. split; [reflexivity|]. split; [reflexivity|].
  destruct (unsatisfiable_budget_hangs_the_run Cases.starved Examples.smallEnv
              Cases.alphaUnit
              [Runner.Loop Throttle.EvImmediate; Runner.Loop (Throttle.EvTick 250);
               Runner.Loop (Throttle.EvTimer 0)] Cases.starvedState Hin)
    as (_ & _ & Hpending).
  - right. right. reflexivity.
  - reflexivity.
  - apply Hpending; [intros u err; reflexivity|intros done all r; reflexivity].
Defined.


Lemma run_returns_every_result_witness :
  Runner.runEvents Examples.smallRun Examples.smallEnv
    (Runner.runBenchmark Examples.smallRun) Examples.smallSchedule
    = Some Examples.smallFinal
  ∧ Runner.finished Examples.smallFinal
    = Some (Runner.Returned Examples.smallOutput)
  ∧ length (Runner.outResults Examples.smallOutput) = (2 * 1)%nat.
Proof.
  split; [reflexivity|]. split; [reflexivity|].
  destruct (run_returns_every_result Examples.smallRun Examples.smallEnv
              Examples.smallSchedule Examples.smallFinal eq_refl) as [Hreturned _].
  apply (Hreturned Examples.smallOutput). reflexivity.
Defined.

Lemma terminal_failure_is_recorded_witness :
  Runner.runEvents Examples.smallRun Examples.smallEnv
    (Runner.runBenchmark Examples.smallRun) (take 4 Examples.smallSchedule)
    = Some Cases.betaInFlight
  ∧ ∃ s', Runner.runStep Examples.smallRun Examples.smallEnv Cases.betaInFlight
            (Runner.Loop (Throttle.EvSettle 0 Throttle.Fulfilled)) = Some s'
          ∧ Runner.error <$> Runner.results s'
            = [None; Some "500 Internal Server Error"].
Proof.
  split; [reflexivity|].
  destruct (terminal_failure_is_recorded Examples.smallRun Examples.smallEnv
              Cases.betaInFlight 0 (Totals.entryOf Examples.betaUnit)
              Examples.threeAttempts Examples.serverError)
    as [(s' & Hstep & Hresults & _) _].
  - reflexivity.
  - reflexivity.
  - reflexivity.
  - reflexivity.
  - exists s'. split; [exact Hstep|]. rewrite Hresults. reflexivity.
Defined.

(** * Further properties of the aggregator *)

Section SummaryOrder.

Import Runner.

Local Open Scope Qc_scope.

Lemma scoreSum_cons r (results : list TestResult) :
  scoreSum (r :: results) = score r + scoreSum results.
Proof. unfold scoreSum at 1. simpl. rewrite scoreSum_acc. ring. Qed.

Lemma scoreSum_perm (l1 l2 : list TestResult) :
  l1 ≡ₚ l2 → scoreSum l1 = scoreSum l2.
Proof.
  induction 1 as [|x l1 l2 _ IH|x y l|l1 l2 l3 _ IH1 _ IH2].
  - done.
  - by rewrite !scoreSum_cons, IH.
  - rewrite !scoreSum_cons. ring.
  - congruence.
Qed.

Lemma ofModel_perm m (l1 l2 : list TestResult) :
  l1 ≡ₚ l2 → ofModel m l1 ≡ₚ ofModel m l2.
Proof.
  unfold ofModel.
  induction 1 as [|x l1 l2 _ IH|x y l|l1 l2 l3 _ IH1 _ IH2]; simpl.
  - done.
  - destruct (bool_decide (model x = m)); by rewrite IH.
  - destruct (bool_decide (model x = m)), (bool_decide (model y = m));
      (done || apply perm_swap).
  - by etrans.
Qed.

(** X14.  How many results [summarize] counts for each model does not
    depend on the order of the results; and for results whose scores are
    all 0 or 1, as the exact evaluator gives them, the whole summary is the
    same in every order: the table per model and the overall mean.  (The
    sums are then whole numbers, which floating-point addition does not
    round in any order; in the embedding, where scores are exact, the
    summary is the same for all scores.) *)
Theorem summarize_ignores_order (l1 l2 : list TestResult) :
  l1 ≡ₚ l2 →
  testCount <$> byModel (summarize l1) = testCount <$> byModel (summarize l2)
  ∧ ((∀ r, r ∈ l1 → score r = 0 ∨ score r = 1) → summarize l1 = summarize l2).
Proof.
  intros Hperm.
  destruct (summarize_means l1) as [Hby1 Hall1].
  destruct (summarize_means l2) as [Hby2 Hall2].
  assert (byModel (summarize l1) = byModel (summarize l2)) as Hby.
  { apply map_eq. intros m. destruct (inherited m) eqn:Hm.
    - by rewrite !summarize_inherited.
    - rewrite Hby1, Hby2 by done.
      pose proof (ofModel_perm m _ _ Hperm) as Hp.
      pose proof (Permutation_length Hp) as Hlen.
      pose proof (scoreSum_perm _ _ Hp) as Hsum.
      destruct (ofModel m l1) as [|a1 t1], (ofModel m l2) as [|a2 t2];
        try done. cbn zeta. cbn [length] in *. injection Hlen as ->.
      by rewrite Hsum. }
  assert (overallAvg (summarize l1) = overallAvg (summarize l2)) as Hall.
  { rewrite Hall1, Hall2.
    pose proof (Permutation_length Hperm) as Hlen.
    pose proof (scoreSum_perm _ _ Hperm) as Hsum.
    destruct l1, l2; try done. cbn [length] in *. injection Hlen as ->.
    by rewrite Hsum. }
  split; [by rewrite Hby|].
  intros _. destruct (summarize l1), (summarize l2). simpl in *. congruence.
Qed.

(** *** Scores between 0 and 1 *)

Lemma QcOfNat_S (n : nat) : QcOfNat (S n) = QcOfNat n + 1.
Proof.
  unfold QcOfNat. apply Qc_is_canon. simpl.
  rewrite !Qred_correct. rewrite Nat2Z.inj_succ.
  unfold Z.succ. rewrite inject_Z_plus. reflexivity.
Qed.

Lemma QcOfNat_nonneg (n : nat) : 0 ≤ QcOfNat n.
Proof.
  induction n as [|n IH]; [done|].
  rewrite QcOfNat_S. by apply Qcplus_nonneg_nonneg.
Qed.

Lemma QcOfNat_pos (n : nat) : 0 < QcOfNat (S n).
Proof.
  rewrite QcOfNat_S. apply Qcplus_nonneg_pos; [apply QcOfNat_nonneg|done].
Qed.

Lemma scoreSum_bounds (results : list TestResult) :
  Forall (λ r, 0 ≤ score r ∧ score r ≤ 1) results →
  0 ≤ scoreSum results ∧ scoreSum results ≤ QcOfNat (length results).
Proof.
  induction 1 as [|r results [H0 H1] _ [IH0 IH1]].
  - done.
  - rewrite scoreSum_cons. simpl. rewrite QcOfNat_S. split.
    + by apply Qcplus_nonneg_nonneg.
    + rewrite (Qcplus_comm (QcOfNat _)). by apply Qcplus_le_compat.
Qed.

Lemma quotient_bounds (q : Qc) (n : nat) :
  0 ≤ q → q ≤ QcOfNat (S n) →
  0 ≤ q / QcOfNat (S n) ∧ q / QcOfNat (S n) ≤ 1.
Proof.
  intros H0 H1. pose proof (QcOfNat_pos n) as Hpos.
  pose proof (Qcinv_pos _ Hpos) as Hinv.
  unfold Qcdiv. split.
  - apply Qcmult_nonneg_nonneg; [done|by apply Qclt_le_weak].
  - rewrite <- (Qcmult_inv_r (QcOfNat (S n))).
    + apply Qcmult_le_compat_r; [done|by apply Qclt_le_weak].
    + intros Hz. rewrite Hz in Hpos. by apply Qclt_not_eq in Hpos.
Qed.

(** X15.  When every score lies between 0 and 1, so do the overall mean
    and every model's mean; and every entry of the table stands for at least
    one result, namely all the results of its model, so no mean is ever the
    fallback for an empty group. *)
Theorem summarize_means_stay_in_range (results : list TestResult) :
  (∀ r, r ∈ results → 0 ≤ score r ∧ score r ≤ 1) →
  (0 ≤ overallAvg (summarize results) ∧ overallAvg (summarize results) ≤ 1)
  ∧ ∀ m v, byModel (summarize results) !! m = Some v →
      (1 ≤ testCount v)%nat
      ∧ testCount v = length (ofModel m results)
      ∧ 0 ≤ avgScore v ∧ avgScore v ≤ 1.
Proof.
  intros Hrange. destruct (summarize_means results) as [Hby Hall].
  assert (∀ l : list TestResult, (∀ r, r ∈ l → r ∈ results) →
            Forall (λ r, 0 ≤ score r ∧ score r ≤ 1) l) as Hsub.
  { intros l Hl. apply Forall_forall. intros r Hr. by apply Hrange, Hl. }
  split.
  - rewrite Hall. destruct results as [|r rs] eqn:E; [done|]. rewrite <- E in *.
    destruct (scoreSum_bounds results) as [H0 H1]; [by apply Hsub|].
    rewrite E in *. by apply quotient_bounds.
  - intros m v Hv. destruct (inherited m) eqn:Hm.
    { by rewrite summarize_inherited in Hv. }
    rewrite Hby in Hv by done.
    destruct (ofModel m results) as [|r mine] eqn:E; [done|].
    injection Hv as <-. simpl.
    destruct (scoreSum_bounds (r :: mine)) as [H0 H1].
    { apply Hsub. intros x Hx. rewrite <- E in Hx. unfold ofModel in Hx.
      apply list_elem_of_In, List.filter_In in Hx as [Hx _].
      by apply list_elem_of_In. }
    destruct (quotient_bounds (scoreSum (r :: mine)) (length mine) H0 H1).
    split_and!; [lia|done..].
Qed.

End SummaryOrder.

Lemma summarize_ignores_order_witness :
  Cases.wholeScores ≡ₚ Cases.wholeScoresLater
  ∧ Runner.summarize Cases.wholeScores = Runner.summarize Cases.wholeScoresLater.
Proof.
  assert (Cases.wholeScores ≡ₚ Cases.wholeScoresLater) as Hperm.
  { unfold Cases.wholeScores, Cases.wholeScoresLater.
    symmetry. apply (Permutation_cons_append [_; _]). }
  split; [exact Hperm|].
  apply (summarize_ignores_order _ _ Hperm).
  intros r Hr. unfold Cases.wholeScores in Hr.
  repeat (apply elem_of_cons in Hr as [->|Hr]); [by right|by left|by right|].
  by apply elem_of_nil in Hr.
Defined.

Lemma summarize_means_stay_in_range_witness :
  (Runner.overallAvg (Runner.summarize Examples.threeScores) ≤ 1)%Qc.
Proof.
  destruct (summarize_means_stay_in_range Examples.threeScores) as [[_ Hle] _].
  - intros r Hr. unfold Examples.threeScores in Hr.
    repeat (apply elem_of_cons in Hr as [->|Hr]); [split; vm_compute; discriminate..|].
    by apply elem_of_nil in Hr.
  - exact Hle.
Defined.

(** * Further properties of the trace names *)

Section TraceShape.

Import Runner.

Lemma allChars_append (p : ascii → bool) (a b : string) :
  allChars p (a +:+ b) = allChars p a && allChars p b.
Proof.
  induction a as [|c a IH]; [done|].
  rewrite append_cons. simpl. by rewrite IH, andb_assoc.
Qed.

Lemma sanitize_all_kept (s : string) : allChars keptChar (sanitize s) = true.
Proof.
  induction s as [|c s IH]; simpl; [done|].
  rewrite IH, andb_true_r. by destruct (keptChar c) eqn:Hc.
Qed.

(** X16.  [sanitize] keeps the length of a name, leaves nothing but
    letters, digits, underscores, dots and hyphens, changes nothing when
    applied again, and is the identity exactly on the names made of these
    characters; so the trace file name of any result consists of these
    characters only: whatever the model name or test id, it holds no path
    separator. *)
Theorem trace_names_are_plain :
  (∀ s, String.length (sanitize s) = String.length s
        ∧ allChars keptChar (sanitize s) = true
        ∧ sanitize (sanitize s) = sanitize s
        ∧ (sanitize s = s ↔ allChars keptChar s = true))
  ∧ (∀ r, allChars keptChar (traceName r) = true)
  ∧ keptChar "/" = false ∧ keptChar "092" = false.
Proof.
  split_and!; [|intros r|done|done].
  - intros s. split_and!.
    + induction s as [|c s IH]; simpl; [done|]. by rewrite IH.
    + apply sanitize_all_kept.
    + apply sanitize_kept, sanitize_all_kept.
    + split; [|apply sanitize_kept].
      intros Heq. rewrite <- Heq. apply sanitize_all_kept.
  - unfold traceName, traceNameOf.
    rewrite !allChars_append, !sanitize_all_kept.
    by destruct (isFail r).
Qed.

(** X21.  The trace of a unit that failed is always flagged: the result
    built in the [catch] branch gets a file name ending in [__FAIL.json],
    also when the error message is empty; and the result of a unit that
    succeeded is flagged exactly when its score is below 1. *)
Theorem failed_units_are_flagged (env : Env) (u : WorkItem) :
  (∀ err, traceName (failureResult env u err)
          = sanitize (name (unitModel u)) +:+ "__"
            +:+ sanitize (id (unitTest u)) +:+ "__FAIL.json")
  ∧ (∀ text payload sc,
       (sc < 1)%Qc →
       traceName (successResult env u text payload sc)
       = sanitize (name (unitModel u)) +:+ "__"
         +:+ sanitize (id (unitTest u)) +:+ "__FAIL.json")
  ∧ (∀ text payload sc,
       (1 ≤ sc)%Qc →
       traceName (successResult env u text payload sc)
       = sanitize (name (unitModel u)) +:+ "__"
         +:+ sanitize (id (unitTest u)) +:+ ".json").
Proof.
  split_and!.
  - intros err. unfold traceName, traceNameOf, isFail. simpl.
    rewrite orb_true_r. done.
  - intros text payload sc Hsc. unfold traceName, traceNameOf, isFail. simpl.
    by rewrite bool_decide_eq_true_2.
  - intros text payload sc Hsc. unfold traceName, traceNameOf, isFail. simpl.
    rewrite bool_decide_eq_false_2; [done|]. by apply Qcle_not_lt.
Qed.

End TraceShape.

Lemma failed_units_are_flagged_witness :
  Runner.traceName
    (Runner.failureResult Examples.smallEnv Examples.betaUnit Examples.serverError)
  = "beta__greeting__FAIL.json"
  ∧ Runner.traceName
      (Runner.successResult Examples.smallEnv Cases.alphaUnit "kia ora" "{}" 1%Qc)
    = "alpha__greeting.json".
Proof.
  destruct (failed_units_are_flagged Examples.smallEnv Examples.betaUnit)
    as (Hfail & _ & _).
  destruct (failed_units_are_flagged Examples.smallEnv Cases.alphaUnit)
    as (_ & _ & Hpass).
  split; [apply Hfail|]. apply Hpass. vm_compute. discriminate.
Defined.

(** * Properties of the evaluator *)

Section JudgeFacts.

Import Runner Evaluate.

Local Open Scope Qc_scope.

Lemma QcOfNat_le (n m : nat) : (n ≤ m)%nat → QcOfNat n ≤ QcOfNat m.
Proof.
  induction 1 as [|m _ IH]; [done|].
  rewrite QcOfNat_S. etrans; [exact IH|].
  rewrite <- (Qcplus_0_r (QcOfNat m)) at 1.
  by apply Qcplus_le_compat.
Qed.

Lemma digitOf_range (c : ascii) (d : nat) : digitOf c = Some d → (d ≤ 9)%nat.
Proof.
  unfold digitOf.
  destruct ((48 <=? nat_of_ascii c)%nat && (nat_of_ascii c <=? 57)%nat) eqn:E; [|done].
  apply andb_true_iff in E as [H1%Nat.leb_le H2%Nat.leb_le]. intros [= <-]. lia.
Qed.

Lemma leadingDigits_range (s : string) :
  Forall (λ d, (d ≤ 9)%nat) (leadingDigits s).
Proof.
  induction s as [|c s IH]; simpl; [done|].
  destruct (digitOf c) as [d|] eqn:Hd; [|done].
  constructor; [by eapply digitOf_range|done].
Qed.

Lemma decimals_range (ds : list nat) :
  Forall (λ d, (d ≤ 9)%nat) ds → 0 ≤ decimals ds ∧ decimals ds < 1.
Proof.
  induction 1 as [|d ds Hd _ [IH0 IH1]]; [done|].
  unfold decimals. simpl. fold (decimals ds).
  assert (0 < QcOfNat 10) as Hten by apply (QcOfNat_pos 9).
  pose proof (Qcinv_pos _ Hten) as Hinv.
  assert (0 ≤ QcOfNat d + decimals ds) as Hnum0.
  { apply Qcplus_nonneg_nonneg; [apply QcOfNat_nonneg|done]. }
  assert (QcOfNat d + decimals ds < QcOfNat 10) as Hnum1.
  { change 10%nat with (S 9). rewrite QcOfNat_S.
    apply Qcle_lt_trans with (QcOfNat 9 + decimals ds).
    - apply Qcplus_le_mono_r. by apply QcOfNat_le.
    - by apply Qcplus_lt_mono_l. }
  unfold Qcdiv. split.
  - apply Qcmult_nonneg_nonneg; [done|by apply Qclt_le_weak].
  - rewrite <- (Qcmult_inv_r (QcOfNat 10)).
    + by apply Qcmult_lt_compat_r.
    + intros Hz. rewrite Hz in Hten. by apply Qclt_not_eq in Hten.
Qed.

(** Only after a dot can decimals belong to the match. *)
Lemma matchedAt_no_dot (lead : nat) (c : ascii) (rest : string) :
  c ≠ "."%char → matchedAt lead (String c rest) = QcOfNat lead.
Proof.
  intros Hc. destruct c as [[] [] [] [] [] [] [] []]; done.
Qed.

Lemma matchedAt_zero (rest : string) :
  0 ≤ matchedAt 0 rest ∧ matchedAt 0 rest < 1.
Proof.
  destruct rest as [|c rest]; [done|].
  destruct (Ascii.eqb_spec c ".") as [->|Hc]; [|by rewrite matchedAt_no_dot].
  unfold matchedAt.
  pose proof (leadingDigits_range rest) as Hr.
  destruct (leadingDigits rest) as [|d ds]; [done|].
  destruct (decimals_range _ Hr) as [H0 H1].
  change (QcOfNat 0) with 0. by rewrite Qcplus_0_l.
Qed.

Lemma matchedAt_one (rest : string) : 1 ≤ matchedAt 1 rest.
Proof.
  destruct rest as [|c rest]; [done|].
  destruct (Ascii.eqb_spec c ".") as [->|Hc]; [|by rewrite matchedAt_no_dot].
  unfold matchedAt.
  pose proof (leadingDigits_range rest) as Hr.
  destruct (leadingDigits rest) as [|d ds]; [done|].
  destruct (decimals_range _ Hr) as [H0 _].
  rewrite <- (Qcplus_0_r 1) at 1. by apply Qcplus_le_compat.
Qed.

Lemma firstMatch_firstBit (text : string) :
  match firstBit text with
  | None => firstMatch text = None
  | Some true => ∃ rest, firstMatch text = Some (matchedAt 1 rest)
  | Some false => ∃ rest, firstMatch text = Some (matchedAt 0 rest)
  end.
Proof.
  induction text as [|c text IH]; simpl; [done|].
  destruct (Ascii.eqb c "0"); [eauto|].
  destruct (Ascii.eqb c "1"); [eauto|]. done.
Qed.

Lemma firstMatch_at_zero (before after : string) :
  firstBit before = None →
  firstMatch (before +:+ String "0" after) = Some (matchedAt 0 after).
Proof.
  induction before as [|c before IH]; simpl; [done|].
  destruct (Ascii.eqb c "0"); [done|]. destruct (Ascii.eqb c "1"); [done|].
  exact IH.
Qed.

Lemma decimals_zeros (ds : list nat) : Forall (λ d, d = 0%nat) ds → decimals ds = 0.
Proof.
  induction 1 as [|d ds -> _ IH]; [done|].
  unfold decimals. simpl. fold (decimals ds). rewrite IH.
  by apply Qc_is_canon.
Qed.

Lemma matchedAt_fraction (lead : nat) (rest : string) :
  matchedAt lead rest
  = match fraction rest with
    | [] => QcOfNat lead
    | ds => QcOfNat lead + decimals ds
    end.
Proof.
  destruct rest as [|c rest]; [done|].
  destruct (Ascii.eqb_spec c ".") as [->|Hc]; [done|].
  rewrite matchedAt_no_dot by done.
  destruct c as [[] [] [] [] [] [] [] []]; done.
Qed.

(** X17.  The judge's reply is read at its first [0] or [1], whatever
    stands before it: without one the score is 0; when it is a [1] the score
    is 1, also for the [1] of a larger number such as 10 or 100; when it is
    a [0] that no fraction follows, or a fraction of zeros only, the score
    is 0; and in every case the score lies between 0 and 1.  (Of the other
    fractions, which the code rounds to the nearest double, nothing but
    these bounds is stated.) *)
Theorem judge_reply_is_read_at_first_bit (text : string) :
  (0 ≤ judgeScore text ∧ judgeScore text ≤ 1)
  ∧ (firstBit text = None → judgeScore text = 0)
  ∧ (firstBit text = Some true → judgeScore text = 1)
  ∧ (∀ before after,
       text = before +:+ String "0" after → firstBit before = None →
       Forall (λ d, d = 0%nat) (fraction after) → judgeScore text = 0).
Proof.
  split; [|split; [|split]].
  - pose proof (firstMatch_firstBit text) as Hm. unfold judgeScore.
    destruct (firstBit text) as [[]|].
    + destruct Hm as (rest & ->). pose proof (matchedAt_one rest) as H1.
      assert (minQc 1 (matchedAt 1 rest) = 1) as ->.
      { unfold minQc. by rewrite bool_decide_eq_true_2. }
      done.
    + destruct Hm as (rest & ->). destruct (matchedAt_zero rest) as [H0 H1].
      assert (minQc 1 (matchedAt 0 rest) = matchedAt 0 rest) as ->.
      { unfold minQc. rewrite bool_decide_eq_false_2; [done|].
        by apply Qclt_not_le. }
      assert (maxQc 0 (matchedAt 0 rest) = matchedAt 0 rest) as ->.
      { unfold maxQc. by rewrite bool_decide_eq_true_2. }
      split; [done|by apply Qclt_le_weak].
    + by rewrite Hm.
  - intros Hnone. pose proof (firstMatch_firstBit text) as Hm.
    rewrite Hnone in Hm. unfold judgeScore. by rewrite Hm.
  - intros Hone. pose proof (firstMatch_firstBit text) as Hm.
    rewrite Hone in Hm. destruct Hm as (rest & Hm).
    unfold judgeScore. rewrite Hm. pose proof (matchedAt_one rest) as H1.
    unfold minQc. by rewrite bool_decide_eq_true_2.
  - intros before after -> Hnone Hzeros.
    unfold judgeScore. rewrite firstMatch_at_zero by done.
    assert (matchedAt 0 after = 0) as ->; [|done].
    rewrite matchedAt_fraction.
    destruct (fraction after) as [|d ds] eqn:Hf; [done|].
    rewrite decimals_zeros by done. by apply Qc_is_canon.
Qed.

End JudgeFacts.

Lemma judge_reply_is_read_at_first_bit_witness :
  Evaluate.firstBit "5 out of 10" = Some true
  ∧ Evaluate.judgeScore "5 out of 10" = 1%Qc
  ∧ Evaluate.judgeScore "Score: 0/10" = 0%Qc
  ∧ Evaluate.judgeScore "eight" = 0%Qc.
Proof.
  split; [reflexivity|]. split_and!.
  - apply (judge_reply_is_read_at_first_bit "5 out of 10"). reflexivity.
  - destruct (judge_reply_is_read_at_first_bit "Score: 0/10") as (_ & _ & _ & Hzero).
    apply (Hzero "Score: " "/10"); [reflexivity|reflexivity|constructor].
  - apply (judge_reply_is_read_at_first_bit "eight"). reflexivity.
Defined.

Section ExactFacts.

Import Runner Evaluate.


Variables (normalize : string → string) (wordMatch : string → string → bool).

Lemma exactLoop_zero_or_one p q (candidate : string) (expected : list string) :
  exactLoop normalize wordMatch p q candidate expected = 0%Qc
  ∨ exactLoop normalize wordMatch p q candidate expected = 1%Qc.
Proof.
  induction expected as [|e es IH]; simpl; [by left|].
  destruct (String.eqb _ _); [by right|].
  destruct (p && _); [by right|].
  destruct (q && _); [by right|]. done.
Qed.

Lemma prefix_empty (s : string) : String.prefix "" s = true.
Proof. by destruct s. Qed.

(** X19.  [evaluateExact] scores 0 or 1.  It scores 1 as soon as one
    expected answer normalises to the same text as the response.  Without
    [allowPrefix] and [allowSubstring] that is the only way to score 1; so a
    test without [expected], which is compared with the empty text, scores 1
    exactly for a response that normalises to nothing, and an empty array of
    expected answers scores 0.  And with [allowPrefix], an expected answer
    that normalises to the empty text makes every response score 1. *)
Theorem evaluateExact_scoring (allowPrefix allowSubstring : bool)
    (expected : Expected) (response : string) :
  (evaluateExact normalize wordMatch allowPrefix allowSubstring expected response = 0%Qc
   ∨ evaluateExact normalize wordMatch allowPrefix allowSubstring expected response = 1%Qc)
  ∧ ((∃ e, e ∈ expectedList expected ∧ normalize e = normalize response) →
     evaluateExact normalize wordMatch allowPrefix allowSubstring expected response = 1%Qc)
  ∧ (evaluateExact normalize wordMatch false false expected response = 1%Qc
     ↔ ∃ e, e ∈ expectedList expected ∧ normalize e = normalize response)
  ∧ (evaluateExact normalize wordMatch false false NoExpected response = 1%Qc
     ↔ normalize "" = normalize response)
  ∧ evaluateExact normalize wordMatch allowPrefix allowSubstring (ManyExpected []) response
    = 0%Qc
  ∧ ((∃ e, e ∈ expectedList expected ∧ normalize e = ""%string) →
     evaluateExact normalize wordMatch true allowSubstring expected response = 1%Qc).
Proof.
  assert (∀ p q es, (∃ e, e ∈ es ∧ normalize e = normalize response) →
            exactLoop normalize wordMatch p q (normalize response) es = 1%Qc) as Hhit.
  { intros p q es (e & He & Heq). induction es as [|x es IH]; [by apply elem_of_nil in He|].
    simpl. destruct (String.eqb_spec (normalize x) (normalize response)) as [|Hne]; [done|].
    apply elem_of_cons in He as [->|He]; [done|].
    destruct (p && _); [done|]. destruct (q && _); [done|]. by apply IH. }
  assert (∀ es, exactLoop normalize wordMatch false false (normalize response) es = 1%Qc →
            ∃ e, e ∈ es ∧ normalize e = normalize response) as Hplain.
  { intros es. induction es as [|x es IH]; simpl; [done|].
    destruct (String.eqb_spec (normalize x) (normalize response)) as [Heq|Hne].
    - intros _. exists x. split; [by left|done].
    - intros H. destruct (IH H) as (e & He & Heq). exists e. split; [by right|done]. }
  unfold evaluateExact. split_and!.
  - apply exactLoop_zero_or_one.
  - apply Hhit.
  - split; [apply Hplain|apply Hhit].
  - split.
    + intros H. destruct (Hplain _ H) as (e & ->%list_elem_of_singleton & Heq). done.
    + intros Heq. apply Hhit. exists ""%string. split; [by left|done].
  - done.
  - intros (e & He & Hempty). generalize (normalize response). intros candidate.
    induction (expectedList expected) as [|x es IH]; [by apply elem_of_nil in He|].
    simpl. destruct (String.eqb _ _); [done|].
    apply elem_of_cons in He as [<-|He].
    + by rewrite Hempty, prefix_empty.
    + destruct (String.prefix _ _); [done|]. simpl.
      destruct (allowSubstring && _); [done|]. by apply IH.
Qed.

End ExactFacts.

Lemma evaluateExact_scoring_witness :
  Evaluate.evaluateExact (λ s, s) (λ _ _, false) true false
    (Evaluate.OneExpected "") "anything" = 1%Qc
  ∧ Evaluate.evaluateExact (λ s, s) (λ _ _, false) false false
      (Evaluate.ManyExpected ["kia ora"; "tena koe"]) "tena koe" = 1%Qc.
Proof.
  split.
  - destruct (evaluateExact_scoring (λ s, s) (λ _ _, false) true false
                (Evaluate.OneExpected "") "anything") as (_ & _ & _ & _ & _ & Hany).
    apply Hany. exists ""%string. split; [by left|reflexivity].
  - destruct (evaluateExact_scoring (λ s, s) (λ _ _, false) false false
                (Evaluate.ManyExpected ["kia ora"; "tena koe"]%string) "tena koe")
      as (_ & Hhit & _).
    apply Hhit. exists "tena koe"%string. split; [|reflexivity].
    simpl. right. left.
Defined.

(** * Properties of the command line *)

Section CliFacts.

Import Runner Cli.

Lemma find_answers (known : list ModelConfig) (r : string) (hit : ModelConfig) :
  List.find (answersTo r) known = Some hit →
  hit ∈ known ∧ (cfgName hit = Some r ∨ cfgProvider hit = r).
Proof.
  intros Hfind. apply List.find_some in Hfind as [Hin Hans].
  split; [by apply list_elem_of_In|].
  unfold answersTo in Hans. apply orb_true_iff in Hans as [H|H];
    apply bool_decide_eq_true in H; eauto.
Qed.

(** X20.  [resolveModels] returns one model per requested name, in the
    order of the request, so it returns none only for an empty request.  A
    name that no configuration entry has as name or provider id, and every
    name when the configuration is not an array, is passed on as its own
    provider id.  Otherwise the first entry that has it decides: the model
    gets that entry's provider id and parameters, and the entry's name if it
    has one (else the provider id), so the requested name is always the
    model's name or its provider id. *)
Theorem resolveModels_one_per_request (requested : list string) (cfg : ConfigJson) :
  length (resolveModels requested cfg) = length requested
  ∧ (resolveModels requested cfg = [] ↔ requested = [])
  ∧ resolveModels requested NotArray
    = (λ r, {| name := r; provider_id := r; params := None |}) <$> requested
  ∧ ∀ i r, requested !! i = Some r →
      ∃ m, resolveModels requested cfg !! i = Some m
        ∧ (name m = r ∨ provider_id m = r)
        ∧ ((∀ c, c ∈ configList cfg → answersTo r c = false) →
           m = {| name := r; provider_id := r; params := None |})
        ∧ (∀ hit older newer, configList cfg = older ++ hit :: newer →
             answersTo r hit = true →
             (∀ c, c ∈ older → answersTo r c = false) →
             provider_id m = cfgProvider hit ∧ params m = cfgParams hit
             ∧ name m = default (cfgProvider hit) (cfgName hit)).
Proof.
  assert (∀ (f : string → ModelSpec) l, List.map f l = f <$> l) as Hmap.
  { intros f l. induction l as [|x l IH]; simpl; [done|]. by rewrite IH. }
  unfold resolveModels. rewrite !Hmap. split_and!.
  - by rewrite length_fmap.
  - split; [|by intros ->]. by intros ?%fmap_nil_inv.
  - done.
  - intros i r Hi. exists (resolveOne (configList cfg) r).
    split; [by rewrite list_lookup_fmap, Hi|].
    unfold resolveOne. split_and!.
    + destruct (List.find _ _) as [hit|] eqn:Hf; simpl; [|by left].
      destruct (find_answers _ _ _ Hf) as [_ [Hn|Hp]]; [left|by right].
      by rewrite Hn.
    + intros Hnone. destruct (List.find _ _) as [hit|] eqn:Hf; [|done].
      apply List.find_some in Hf as [Hin Hans].
      rewrite Hnone in Hans; [done|by apply list_elem_of_In].
    + intros hit older newer Hsplit Hans Hold. rewrite Hsplit.
      assert (∀ tail, List.find (answersTo r) (older ++ hit :: tail) = Some hit) as ->.
      { intros tail. clear Hsplit. induction older as [|c older IH]; simpl.
        - by rewrite Hans.
        - rewrite (Hold c) by (by left). apply IH.
          intros c' Hc'. apply Hold. by right. }
      done.
Qed.

End CliFacts.

Lemma resolveModels_one_per_request_witness :
  ∃ m, Cli.resolveModels ["lab/beta"; "gamma"] Cases.modelsFile !! 1%nat = Some m
       ∧ m = {| Runner.name := "gamma"; Runner.provider_id := "gamma";
                Runner.params := None |}.
Proof.
  destruct (resolveModels_one_per_request ["lab/beta"; "gamma"]%string Cases.modelsFile)
    as (_ & _ & _ & Heach).
  destruct (Heach 1%nat "gamma"%string eq_refl) as (m & Hm & _ & Hnew & _).
  exists m. split; [exact Hm|]. apply Hnew.
  intros c Hc. vm_compute in Hc.
  repeat (apply elem_of_cons in Hc as [->|Hc]); [reflexivity..|].
  by apply elem_of_nil in Hc.
Defined.
